(** * VectorQuantizedCPC: the vector quantizer and the CPC loss of [model.py]

    A shallow embedding of [VQEmbeddingEMA.forward], [ChannelNorm.forward],
    [Encoder.forward], [PositionalEncoding], [generate_square_subsequent_mask]
    and [CPCLoss.forward].

    Modelling conventions.
    - A torch tensor is its shape together with an indexing function; the
      [view], [reshape], [permute], [transpose], [gather] and advanced-indexing
      calls of the source are written out as the index arithmetic they perform
      on a contiguous row-major tensor.
    - Floating-point numbers are read as exact real numbers ([R]); the one
      non-finite value the source builds on purpose, [float('-inf')] in the
      attention mask, has a constructor of its own.
    - A call that raises in Python returns [None] (quantizer) or reports
      [None] as its result next to the state it leaves behind (CPC loss).
    - [torch.randint] draws are supplied by an oracle of raw naturals that
      [randint_val] maps into the requested half-open range.
    - Where torch answers a division by zero with [inf] or [nan] (the mean
      over an empty batch), the real-number reading has no counterpart; the
      properties below are stated where the divisors are not zero.
    - The transformer layers the CPC loss calls into are torch modules:
      they are parameters of a call, as are the outcomes of dropout. *)

From Stdlib Require Import Reals Lra Lia ZArith List Bool Arith.
Import ListNotations.
Local Open Scope R_scope.

(** ** Finite sums of reals *)

Fixpoint sumR (n : nat) (f : nat -> R) : R :=
  match n with
  | O => 0
  | S k => sumR k f + f k
  end.

Definition sq (a : R) : R := a * a.

(** ** Tensors: shape and contents *)

Record Tensor2 := T2 { rows2 : nat; cols2 : nat; get2 : nat -> nat -> R }.

Record Tensor3 := T3 {
  size0 : nat; size1 : nat; size2 : nat;
  get3 : nat -> nat -> nat -> R }.

(** Two tensors are the same tensor when they have the same shape and the same
    element at every position inside it. *)
Definition teq3 (a b : Tensor3) : Prop :=
  size0 a = size0 b /\ size1 a = size1 b /\ size2 a = size2 b /\
  forall i j k, (i < size0 a)%nat -> (j < size1 a)%nat -> (k < size2 a)%nat ->
    get3 a i j k = get3 b i j k.

(** [torch.argmin] / [torch.argmax] over a dimension of size [M >= 1]: the
    index of the first extremal value. *)
Fixpoint argmin (M : nat) (g : nat -> R) : nat :=
  match M with
  | O => O
  | S k =>
      match k with
      | O => O
      | S _ => let j := argmin k g in if Rlt_dec (g k) (g j) then k else j
      end
  end.

Fixpoint argmax (M : nat) (g : nat -> R) : nat :=
  match M with
  | O => O
  | S k =>
      match k with
      | O => O
      | S _ => let j := argmax k g in if Rlt_dec (g j) (g k) then k else j
      end
  end.

(** ** The vector quantizer, [VQEmbeddingEMA] *)

Module VQ.

Record Config := mkConfig { commitment_cost : R; decay : R; epsilon : R }.

(** The defaults of [__init__]. *)
Definition default_config : Config := mkConfig 0.25 0.999 1e-5.

(** The three registered buffers. *)
Record State := mkState {
  embedding : Tensor3;   (* (N, M, D) *)
  ema_count : Tensor2;   (* (N, M) *)
  ema_weight : Tensor3   (* (N, M, D) *) }.

(** [__init__]: [u] is the outcome of [embedding.uniform_]. *)
Definition init (latent_dim num_embeddings embedding_dim : nat)
    (u : nat -> nat -> nat -> R) : State :=
  let e := T3 latent_dim num_embeddings embedding_dim u in
  mkState e (T2 latent_dim num_embeddings (fun _ _ => 0)) e.

Section Forward.

Variable cfg : Config.
Variable st : State.
Variable x : Tensor3.

(* B, C, L = x.size();  N, M, D = self.embedding.size() *)
Definition B : nat := size0 x.
Definition C : nat := size1 x.
Definition L : nat := size2 x.
Definition N : nat := size0 (embedding st).
Definition M : nat := size1 (embedding st).
Definition D : nat := size2 (embedding st).

(* x.view(B, N, D, L).permute(1, 0, 3, 2) : (N, B, L, D) *)
Definition x_perm (n b l d : nat) : R := get3 x b (n * D + d) l.

(* x.detach().reshape(N, -1, D) : (N, B*L, D) *)
Definition x_flat (n i d : nat) : R := x_perm n (i / L) (i mod L) d.

(* torch.cdist(x_flat, self.embedding) : (N, B*L, M) *)
Definition distances (n i m : nat) : R :=
  sqrt (sumR D (fun d => sq (x_flat n i d - get3 (embedding st) n m d))).

(* torch.argmin(distances, dim=-1) : (N, B*L) *)
Definition indices (n i : nat) : nat := argmin M (distances n i).

(* F.one_hot(indices, M).float() : (N, B*L, M) *)
Definition encodings (n i m : nat) : R :=
  if (indices n i =? m)%nat then 1 else 0.

(* torch.gather(self.embedding, 1, indices.unsqueeze(-1).expand(-1, -1, D)) *)
Definition quantized (n i d : nat) : R :=
  get3 (embedding st) n (indices n i) d.

(* quantized.view_as(x) : (N, B, L, D) *)
Definition quantized4 (n b l d : nat) : R := quantized n (b * L + l) d.

(* line 36: decay * ema_count + (1 - decay) * sum(encodings, dim=1) *)
Definition ema_count_decayed (n m : nat) : R :=
  decay cfg * get2 (ema_count st) n m
  + (1 - decay cfg) * sumR (B * L) (fun i => encodings n i m).

(* line 38: n = torch.sum(self.ema_count, dim=-1, keepdim=True) *)
Definition n_total (n : nat) : R := sumR M (ema_count_decayed n).

(* line 39: (ema_count + epsilon) / (n + M * epsilon) * n *)
Definition ema_count_smoothed (n m : nat) : R :=
  (ema_count_decayed n m + epsilon cfg)
  / (n_total n + INR M * epsilon cfg) * n_total n.

(* line 41: torch.bmm(encodings.transpose(1, 2), x_flat) : (N, M, D) *)
Definition dw (n m d : nat) : R :=
  sumR (B * L) (fun i => encodings n i m * x_flat n i d).

(* line 42 *)
Definition ema_weight_new (n m d : nat) : R :=
  decay cfg * get3 (ema_weight st) n m d + (1 - decay cfg) * dw n m d.

(* line 44: self.ema_weight / self.ema_count.unsqueeze(-1) *)
Definition embedding_new (n m d : nat) : R :=
  ema_weight_new n m d / ema_count_smoothed n m.

(** The buffers after the training branch. *)
Definition update : State :=
  mkState (T3 N M D embedding_new) (T2 N M ema_count_smoothed)
          (T3 N M D ema_weight_new).

(* F.mse_loss(x, quantized.detach()) *)
Definition e_latent_loss : R :=
  sumR N (fun n => sumR B (fun b => sumR L (fun l => sumR D (fun d =>
    sq (x_perm n b l d - quantized4 n b l d)))))
  / INR (N * B * L * D).

Definition loss : R := commitment_cost cfg * e_latent_loss.

(* quantized = x + (quantized - x).detach() *)
Definition quantized_st (n b l d : nat) : R :=
  x_perm n b l d + (quantized4 n b l d - x_perm n b l d).

(* torch.mean(encodings, dim=1) : (N, M) *)
Definition avg_probs (n m : nat) : R :=
  sumR (B * L) (fun i => encodings n i m) / INR (B * L).

(* torch.exp(-torch.sum(avg_probs * torch.log(avg_probs + 1e-10), dim=-1)) *)
Definition perplexity (n : nat) : R :=
  exp (- sumR M (fun m => avg_probs n m * ln (avg_probs n m + 1e-10))).

(* quantized.permute(1, 0, 3, 2).reshape(B, C, L) *)
Definition output : Tensor3 :=
  T3 B C L (fun b c l => quantized_st (c / D) b l (c mod D)).

(** [forward].  The call raises when the assertion [C == N * D] fails, when
    [reshape(N, -1, D)] cannot infer its middle size ([N * D = 0]) and when
    [argmin] reduces over an empty dimension ([M = 0]).  The buffers change
    in training mode only, after [quantized] has been gathered. *)
Definition forward (training : bool) : option (State * (Tensor3 * R * R)) :=
  if negb (C =? N * D)%nat then None
  else if (N * D =? 0)%nat then None
  else if (M =? 0)%nat then None
  else Some (if training then update else st,
             (output, loss, sumR N perplexity)).

End Forward.

(** The buffers have the shapes [__init__] gave them. *)
Definition wf_state (st : State) : Prop :=
  rows2 (ema_count st) = N st /\ cols2 (ema_count st) = M st /\
  size0 (ema_weight st) = N st /\ size1 (ema_weight st) = M st /\
  size2 (ema_weight st) = D st.

Definition counts_nonneg (st : State) : Prop :=
  forall n m, (n < N st)%nat -> (m < M st)%nat -> 0 <= get2 (ema_count st) n m.

(** The buffer states a model can be in: freshly constructed, or left behind
    by a forward call that returned. *)
Inductive reachable (cfg : Config) : State -> Prop :=
| reach_init : forall latent_dim num_embeddings embedding_dim u,
    reachable cfg (init latent_dim num_embeddings embedding_dim u)
| reach_forward : forall st training x st' out,
    reachable cfg st ->
    forward cfg st x training = Some (st', out) ->
    reachable cfg st'.

(** Decay in [0, 1) and a positive smoothing constant. *)
Definition valid_config (cfg : Config) : Prop :=
  0 <= decay cfg < 1 /\ 0 < epsilon cfg.

(** An input the call accepts: the channels split into the [N] groups of
    [D] features of a non-degenerate codebook. *)
Definition valid_input (st : State) (x : Tensor3) : Prop :=
  C x = (N st * D st)%nat /\ (0 < N st)%nat /\ (0 < M st)%nat /\
  (0 < D st)%nat.

(** *** Notions the properties are stated with *)

(** The input vector of group [n] at batch item [b] and time [l], and the
    code [m] of group [n]. *)
Definition input_vector (st : State) (x : Tensor3) (n b l : nat) : nat -> R :=
  fun d => get3 x b (n * D st + d) l.

Definition code (st : State) (n m : nat) : nat -> R :=
  fun d => get3 (embedding st) n m d.

Definition euclid (dim : nat) (v w : nat -> R) : R :=
  sqrt (sumR dim (fun d => sq (v d - w d))).

(** [j] is the first code of group [n] at minimal Euclidean distance of [v]. *)
Definition first_nearest (st : State) (n : nat) (v : nat -> R) (j : nat) : Prop :=
  (j < M st)%nat /\
  (forall m, (m < M st)%nat ->
     euclid (D st) v (code st n j) <= euclid (D st) v (code st n m)) /\
  (forall m, (m < j)%nat ->
     euclid (D st) v (code st n j) < euclid (D st) v (code st n m)).

(** *** Sample buffers and inputs *)

(** A fresh two-group codebook of four three-dimensional codes, and a batch
    of one frame of six channels. *)
Definition codebook_2_4_3 : State :=
  init 2 4 3 (fun n m d => INR m / 1000).

Definition frame_1_6_1 : Tensor3 := T3 1 6 1 (fun b c l => INR c / 1000).

(** Two vectors of [dim] components agree. *)
Definition same_vector (dim : nat) (v w : nat -> R) : Prop :=
  forall d, (d < dim)%nat -> v d = w d.

(** A one-group codebook whose two one-dimensional codes are identical, and
    a frame holding that code. *)
Definition codebook_twins : State := init 1 2 1 (fun n m d => 0).

Definition frame_zero : Tensor3 := T3 1 1 1 (fun b c l => 0).

(** The usage distribution of group [n] is uniform; it puts all its mass on
    one code. *)
Definition uniform_usage (st : State) (x : Tensor3) (n : nat) : Prop :=
  forall m, (m < M st)%nat -> avg_probs st x n m = / INR (M st).

Definition single_code_usage (st : State) (x : Tensor3) (n : nat) : Prop :=
  exists m, (m < M st)%nat /\ avg_probs st x n m = 1.

(** The commitment loss the call would report had vector [i] of group [n]
    been given code [a n i] instead of the code [argmin] chose. *)
Definition assignment_loss (cfg : Config) (st : State) (x : Tensor3)
    (a : nat -> nat -> nat) : R :=
  commitment_cost cfg *
  (sumR (N st) (fun n => sumR (B x) (fun b => sumR (L x) (fun l =>
     sumR (D st) (fun d =>
       sq (x_perm st x n b l d - get3 (embedding st) n (a n (b * L x + l)%nat) d)))))
   / INR (N st * B x * L x * D st)).

(** A batch of no frame, of six channels. *)
Definition frame_0_6_1 : Tensor3 := T3 0 6 1 (fun b c l => 0).

End VQ.

(** ** The attention mask, [generate_square_subsequent_mask] *)

(** A mask entry: a finite float or [float('-inf')]. *)
Inductive xfloat : Type :=
| NegInf : xfloat
| Fin : R -> xfloat.

Record Mask := mkMask { mask_size : nat; mask_at : nat -> nat -> xfloat }.

Section GenerateMask.

Variable sz : nat.

(* torch.triu(torch.ones(sz, sz)) *)
Definition triu_ones (a b : nat) : R := if (a <=? b)%nat then 1 else 0.

(* (... == 1).transpose(0, 1) *)
Definition mask_bool (i j : nat) : bool :=
  if Req_dec_T (triu_ones j i) 1 then true else false.

(* mask.float() *)
Definition mask_float (i j : nat) : xfloat :=
  Fin (if mask_bool i j then 1 else 0).

(* .masked_fill(mask == 0, float('-inf')) *)
Definition mask_fill_inf (i j : nat) : xfloat :=
  if negb (mask_bool i j) then NegInf else mask_float i j.

(* .masked_fill(mask == 1, float(0.0)) *)
Definition mask_fill_zero (i j : nat) : xfloat :=
  if mask_bool i j then Fin 0 else mask_fill_inf i j.

Definition generate_square_subsequent_mask : Mask := mkMask sz mask_fill_zero.

End GenerateMask.

(** ** Positional encoding, [PositionalEncoding] *)

Section Positional.

Variable d_model : nat.
Variable max_len : nat.

(* div_term = torch.exp(torch.arange(0, d_model, 2).float()
                        * (-math.log(10000.0) / d_model)) *)
Definition div_term (i : nat) : R :=
  exp (INR (2 * i) * (- ln 10000 / INR d_model)).

(* pe[:, 0::2] = torch.sin(position * div_term)
   pe[:, 1::2] = torch.cos(position * div_term)
   pe = pe.unsqueeze(0).transpose(0, 1) : (max_len, 1, d_model)
   (built by __init__, which raises for an odd d_model) *)
Definition pe (pos j : nat) : R :=
  if Nat.even j then sin (INR pos * div_term (j / 2))
  else cos (INR pos * div_term (j / 2)).

(** [nn.Dropout(p=0.1)]: the identity in evaluation mode; in training mode
    an element is kept, scaled by [1 / (1 - p)], or zeroed, as the Bernoulli
    outcome [keep] says. *)
Variable training : bool.
Variable keep : nat -> nat -> nat -> bool.

Definition dropout_p : R := 0.1.

Definition dropout (v : R) (t b d : nat) : R :=
  if training then (if keep t b d then v / (1 - dropout_p) else 0) else v.

(** [forward]: [x + self.pe[:x.size(0), :]] broadcasts [x : (L, B, F)]
    against [(min L max_len, 1, d_model)]; with a table of at least two
    rows (the CPC loss builds 200) it raises when [L > max_len], and it
    raises when [F] and [d_model] differ and neither is 1. *)
Definition positional_forward (x : Tensor3) : option Tensor3 :=
  if negb (size0 x <=? max_len)%nat then None
  else if negb ((size2 x =? d_model)%nat || (size2 x =? 1)%nat
                || (d_model =? 1)%nat) then None
  else
    Some (T3 (size0 x) (size1 x)
             (if (size2 x =? 1)%nat then d_model else size2 x)
             (fun t b d =>
                dropout (get3 x t b (if (size2 x =? 1)%nat then O else d)
                         + pe t (if (d_model =? 1)%nat then O else d))
                        t b d)).

End Positional.

(** ** Helpers of the CPC loss *)

(** Running a fallible step over a list, stopping at the first failure. *)
Fixpoint mapM {A E : Type} (f : A -> option E) (l : list A) : option (list E) :=
  match l with
  | [] => Some []
  | a :: r =>
      match f a with
      | None => None
      | Some b =>
          match mapM f r with
          | None => None
          | Some bs => Some (b :: bs)
          end
      end
  end.

(** [torch.randint(low, high, size)] raises unless [low < high]. *)
Definition randint_ok (low high : Z) : bool := (low <? high)%Z.

(** One entry of a [torch.randint(low, high, size)] tensor, from the raw
    natural the generator produced for it. *)
Definition randint_val (low high : Z) (raw : nat) : Z :=
  (low + Z.of_nat raw mod (high - low))%Z.

(** Bounds of the Python slice [a:b] of a dimension of size [len], for a
    start [a >= 0] and any stop [b]. *)
Definition slice_start (a len : nat) : nat := Nat.min a len.

Definition slice_stop (b : Z) (len : nat) : nat :=
  let b' := if (b <? 0)%Z then (b + Z.of_nat len)%Z else b in
  Z.to_nat (Z.min (Z.max b' 0) (Z.of_nat len)).

(** [torch.stack(l).mean()] of a non-empty list of scalars. *)
Definition list_mean (l : list R) : R :=
  fold_right Rplus 0 l / INR (List.length l).

(** ** The contrastive loss, [CPCLoss] *)

Module CPC.

Record Config := mkConfig {
  n_speakers : nat;
  n_prediction_steps : nat;
  n_utterances_per_speaker : nat;
  n_negatives : nat;
  z_dim : nat;
  c_dim : nat }.

(** The one field [forward] assigns: the cached mask, [None] after
    [__init__]. *)
Record State := mkState { mask : option Mask }.

Definition init : State := mkState None.

(** What a call draws on besides its arguments: the mode of the module and
    the outcomes of the dropout of the positional encoding, the transformer
    layer of each horizon (a torch module, given the context and the mask),
    and the raw outcomes of the two [torch.randint] calls of each horizon. *)
Record Env := mkEnv {
  training : bool;
  keep : nat -> nat -> nat -> bool;
  predictors : nat -> Tensor3 -> Mask -> option Tensor3;
  raw_batch : nat -> nat -> nat -> nat;
  raw_seq : nat -> nat -> nat -> nat -> nat -> nat }.

Section Forward.

Variable cfg : Config.
Variable env : Env.
Variable z : Tensor3.
Variable c : Tensor3.

Definition S_ : nat := n_speakers cfg.
Definition K : nat := n_prediction_steps cfg.
Definition U : nat := n_utterances_per_speaker cfg.

(* length = z.size(1) - self.n_prediction_steps *)
Definition length : Z := (Z.of_nat (size1 z) - Z.of_nat K)%Z.

(* z.reshape(S, U, -1, z_dim): the inferred size and the test reshape makes *)
Definition z_numel : nat := (size0 z * size1 z * size2 z)%nat.
Definition z_rest : nat := (S_ * U * z_dim cfg)%nat.
Definition reshape_ok : bool :=
  (0 <? z_rest)%nat && (z_numel mod z_rest =? 0)%nat.
Definition T' : nat := (z_numel / z_rest)%nat.

Definition z_flat (j : nat) : R :=
  get3 z (j / (size1 z * size2 z)) ((j / size2 z) mod size1 z) (j mod size2 z).

Definition z4 (s u t d : nat) : R :=
  z_flat (((s * U + u) * T' + t) * z_dim cfg + d).

(* c[:, :-K, :].transpose(1, 0) *)
Definition c_len : nat := if (K =? 0)%nat then O else (size1 c - K)%nat.
Definition c_sliced : Tensor3 :=
  T3 c_len (size0 c) (size2 c) (fun t b d => get3 c b t d).

(* c = self.positional(c), with PositionalEncoding(z_dim, max_len=200) *)
Definition positional : option Tensor3 :=
  positional_forward (z_dim cfg) 200 (training env) (keep env) c_sliced.

Section Horizon.

Variable c2 : Tensor3.   (* the context after self.positional *)
Variable m : Mask.       (* self.mask *)
Variable k : nat.        (* the horizon, 1 <= k <= K *)

(* z_shift = z[:, :, k:length + k, :] *)
Definition shift_start : nat := slice_start k T'.
Definition shift_len : nat :=
  (slice_stop (length + Z.of_nat k) T' - shift_start)%nat.
Definition z_shift (s u t d : nat) : R := z4 s u (shift_start + t) d.

(* batch_index = torch.randint(0, U, size=(U, n_negatives)).view(1, U, n, 1) *)
Definition batch_index (u n : nat) : Z :=
  randint_val 0 (Z.of_nat U) (raw_batch env k u n).

(* seq_index = torch.randint(1, length, size=(S, U, n_negatives, length))
   seq_index += torch.arange(length)
   seq_index = torch.remainder(seq_index, length) *)
Definition seq_draw (s u n t : nat) : Z :=
  randint_val 1 length (raw_seq env k s u n t).
Definition seq_index (s u n t : nat) : Z :=
  ((seq_draw s u n t + Z.of_nat t) mod length)%Z.

(* speaker_index = torch.arange(S).view(-1, 1, 1, 1) *)
Definition speaker_index (s : nat) : nat := s.

(* z_negatives = z_shift[speaker_index, batch_index, seq_index, :] *)
Definition z_negatives (s u n t d : nat) : R :=
  z_shift (speaker_index s) (Z.to_nat (batch_index u n))
          (Z.to_nat (seq_index s u n t)) d.

(* zs = torch.cat((z_shift.unsqueeze(2), z_negatives), dim=2) *)
Definition zs (s u j t d : nat) : R :=
  match j with
  | O => z_shift s u t d
  | S n => z_negatives s u n t d
  end.

Section Scores.

Variable p : Tensor3.    (* self.predictors[k-1](c, src_mask=self.mask) *)

(* Wc = p.transpose(1, 0).view(S, U, -1, z_dim): the view of the transposed
   output splits its batch axis into (S, U) and keeps the other two; an
   output that is not shaped (_, S * U, z_dim) is reported as a failure *)
Definition view_ok : bool :=
  (size1 p =? S_ * U)%nat && (size2 p =? z_dim cfg)%nat && (0 <? z_rest)%nat.
Definition Wc (s u t d : nat) : R := get3 p t (s * U + u) d.

(* broadcasting Wc.unsqueeze(2) against zs along the time axis *)
Definition broadcast_ok : bool :=
  (size0 p =? Z.to_nat length)%nat || (size0 p =? 1)%nat.
Definition wt (t : nat) : nat :=
  if (size0 p =? Z.to_nat length)%nat then t else O.

(* f = torch.sum(zs * Wc.unsqueeze(2) / math.sqrt(z_dim), dim=-1) *)
Definition f (s u j t : nat) : R :=
  sumR (z_dim cfg)
       (fun d => zs s u j t d * Wc s u (wt t) d / sqrt (INR (z_dim cfg))).

(* f.view(S * U, n_negatives + 1, -1) *)
Definition f2 (b j t : nat) : R := f (b / U) (b mod U) j t.

(* labels = torch.zeros(S * U, length, dtype=int) *)
Definition labels (b t : nat) : nat := O.

Definition n_classes : nat := (n_negatives cfg + 1)%nat.
Definition n_positions : nat := (S_ * U * Z.to_nat length)%nat.

(* F.cross_entropy(f, labels): the mean over all positions of the negative
   log-softmax, over the class axis, at the position's label *)
Definition log_softmax (b t j : nat) : R :=
  f2 b j t - ln (sumR n_classes (fun j' => exp (f2 b j' t))).
Definition cross_entropy : R :=
  sumR (S_ * U) (fun b => sumR (Z.to_nat length) (fun t =>
    - log_softmax b t (labels b t)))
  / INR n_positions.

(* torch.mean((f.argmax(dim=1) == labels).float()) *)
Definition accuracy : R :=
  sumR (S_ * U) (fun b => sumR (Z.to_nat length) (fun t =>
    if (argmax n_classes (fun j => f2 b j t) =? labels b t)%nat
    then 1 else 0))
  / INR n_positions.

End Scores.

(** One pass of the loop body.  It raises when the transformer layer does,
    when [view] cannot split its output, when a [randint] range is empty,
    when [z_shift] is not [length] long (the advanced index or
    [torch.cat] then fails) and when [Wc] does not broadcast. *)
Definition horizon : option (R * R) :=
  match predictors env (k - 1) c2 m with
  | None => None
  | Some p =>
      if negb (view_ok p) then None
      else if negb (randint_ok 0 (Z.of_nat U)) then None
      else if negb (randint_ok 1 length) then None
      else if negb (shift_len =? Z.to_nat length)%nat then None
      else if negb (broadcast_ok p) then None
      else Some (cross_entropy p, accuracy p)
  end.

End Horizon.

(** [forward] from the buffers [st]: the buffers it leaves and, when it
    returns, the loss and the accuracies. *)
Definition forward (st : State) : State * option (R * list R) :=
  if negb reshape_ok then (st, None)
  else
    match positional with
    | None => (st, None)
    | Some c2 =>
        (* if self.mask is None: self.mask = generate...(c.size(0), ...) *)
        let m := match mask st with
                 | Some m => m
                 | None => generate_square_subsequent_mask (size0 c2)
                 end in
        (mkState (Some m),
         match mapM (horizon c2 m) (seq 1 K) with
         | None => None
         | Some rs =>
             (* torch.stack(losses) raises on an empty list *)
             if (K =? 0)%nat then None
             else Some (list_mean (map fst rs), map snd rs)
         end)
    end.

End Forward.

(** A call: what it draws on and its two arguments. *)
Record Call := mkCall { call_env : Env; call_z : Tensor3; call_c : Tensor3 }.

Definition step (cfg : Config) (st : State) (cl : Call) : State :=
  fst (forward cfg (call_env cl) (call_z cl) (call_c cl) st).

(** The buffers after a sequence of calls, whether they returned or raised. *)
Definition run (cfg : Config) (st : State) (cls : list Call) : State :=
  fold_left (step cfg) cls st.


(** *** Notions the properties are stated with *)

Definition same_shape (a b : Tensor3) : Prop :=
  size0 a = size0 b /\ size1 a = size1 b /\ size2 a = size2 b.

(** The latent batch has the configured layout: [S * U] utterances, speaker
    by speaker, of [z_dim] features. *)
Definition z_layout (cfg : Config) (z : Tensor3) : Prop :=
  size0 z = (n_speakers cfg * n_utterances_per_speaker cfg)%nat /\
  size2 z = z_dim cfg /\
  (0 < n_speakers cfg)%nat /\ (0 < n_utterances_per_speaker cfg)%nat /\
  (0 < z_dim cfg)%nat.

(** The context is aligned with the latents: same batch, same time axis,
    [z_dim] features. *)
Definition c_layout (cfg : Config) (z c : Tensor3) : Prop :=
  size0 c = size0 z /\ size1 c = size1 z /\ size2 c = z_dim cfg.

(** The mask the predictors receive in a call from buffers [st], for a
    context [c2]. *)
Definition mask_in_effect (st : State) (c2 : Tensor3) : Mask :=
  match mask st with
  | Some m => m
  | None => generate_square_subsequent_mask (size0 c2)
  end.

(** The output of the transformer layer of horizon [k]. *)
Definition predicted (env : Env) (c2 : Tensor3) (m : Mask) (k : nat) : Tensor3 :=
  match predictors env (k - 1) c2 m with
  | Some p => p
  | None => c2
  end.

(** The transformer layers of a call return, on the context [c2] and the
    mask in effect, a tensor shaped as [c2]. *)
Definition layers_return (cfg : Config) (env : Env) (st : State)
    (c2 : Tensor3) : Prop :=
  forall k, (1 <= k <= n_prediction_steps cfg)%nat ->
    exists p, predictors env (k - 1) c2 (mask_in_effect st c2) = Some p /\
              same_shape p c2.

(** The score of a candidate latent [v] against the prediction at utterance
    [b] and time [t]: the scaled dot product. *)
Definition score (cfg : Config) (p : Tensor3) (v : nat -> R) (b t : nat) : R :=
  sumR (z_dim cfg) (fun d => v d * get3 p t b d / sqrt (INR (z_dim cfg))).

(** Candidate [j] of utterance [b] at time [t] for horizon [k], as [zs]
    lists them along its class axis. *)
Definition candidate (cfg : Config) (env : Env) (z : Tensor3) (k b j t : nat)
    : nat -> R :=
  fun d => zs cfg env z k (b / U cfg) (b mod U cfg) j t d.

(** The cross-entropy of one position whose true class is class 0, from the
    scores [g] of its [n] candidates. *)
Definition nll_class0 (n : nat) (g : nat -> R) : R :=
  ln (sumR n (fun j => exp (g j))) - g O.

(** *** Sample configuration and call *)

(** Two horizons, one speaker, two utterances of ten frames, three
    negatives, eight features. *)
Definition sample_config : Config := mkConfig 1 2 2 3 8 8.

Definition sample_env : Env :=
  mkEnv false (fun _ _ _ => true) (fun _ t _ => Some t)
        (fun k u n => (k + u + n)%nat)
        (fun k s u n t => (k + s + u + n + t)%nat).

Definition sample_z : Tensor3 := T3 2 10 8 (fun b t d => INR (b + t + d)).

Definition sample_call : Call := mkCall sample_env sample_z sample_z.

(** Two utterances of six frames: with the sample configuration, a window
    of length four. *)
Definition sample_z6 : Tensor3 := T3 2 6 8 (fun b t d => INR (b + t + d)).

(** One horizon over utterances of two frames: a window of length one. *)
Definition short_config : Config := mkConfig 1 1 1 1 8 8.

Definition short_z : Tensor3 := T3 1 2 8 (fun b t d => INR (b + t + d)).

(** One horizon over utterances of 203 frames: a window of length 202. *)
Definition long_z : Tensor3 := T3 1 203 8 (fun b t d => INR (b + t + d)).

(** The sample configuration without negatives. *)
Definition no_negative_config : Config := mkConfig 1 2 2 0 8 8.

(** A prediction that is zero everywhere, shaped for the sample call. *)
Definition zero_prediction : Tensor3 := T3 8 2 8 (fun t b d => 0).

(** Transformer layers that return zeros, shaped as their context. *)
Definition zero_env : Env :=
  mkEnv false (fun _ _ _ => true)
        (fun _ t _ => Some (T3 (size0 t) (size1 t) (size2 t) (fun _ _ _ => 0)))
        (fun k u n => (k + u + n)%nat)
        (fun k s u n t => (k + s + u + n + t)%nat).

End CPC.

(** ** Channel normalisation, [ChannelNorm] *)

(* torch.rsqrt *)
Definition rsqrt (v : R) : R := / sqrt v.

Module ChannelNorm.

(** The module: its two parameters, shaped (1, n_features, 1), or [None]
    for both when [affine=False]; and [epsilon]. *)
Record Params := mkParams {
  weight : option Tensor3;
  bias : option Tensor3;
  epsilon : R }.

(** [__init__], which ends in [reset_parameters]: ones and zeros. *)
Definition init (n_features : nat) (eps : R) (affine : bool) : Params :=
  if affine
  then mkParams (Some (T3 1 n_features 1 (fun _ _ _ => 1)))
                (Some (T3 1 n_features 1 (fun _ _ _ => 0))) eps
  else mkParams None None eps.

Section Forward.

Variable prm : Params.
Variable x : Tensor3.

(* cum_mean = x.mean(dim=1, keepdim=True) *)
Definition cum_mean (b l : nat) : R :=
  sumR (size1 x) (fun c => get3 x b c l) / INR (size1 x).

(* cum_var = x.var(dim=1, keepdim=True): the unbiased estimate, whose
   divisor is max(0, C - 1) *)
Definition cum_var (b l : nat) : R :=
  sumR (size1 x) (fun c => sq (get3 x b c l - cum_mean b l))
  / INR (size1 x - 1).

(* x = (x - cum_mean) * torch.rsqrt(cum_var + self.epsilon) *)
Definition normalized (b c l : nat) : R :=
  (get3 x b c l - cum_mean b l) * rsqrt (cum_var b l + epsilon prm).

(** Broadcasting a (B, C, L) tensor against a parameter shaped (1, F, 1):
    allowed when C = F or one of them is 1. *)
Definition broadcast_ok (c f : nat) : bool :=
  (c =? f)%nat || (f =? 1)%nat || (c =? 1)%nat.
Definition broadcast_size (c f : nat) : nat := if (c =? 1)%nat then f else c.
Definition broadcast_index (size i : nat) : nat :=
  if (size =? 1)%nat then O else i.

(** [forward]: [if self.weight is not None: x = x * self.weight + self.bias]. *)
Definition forward : option Tensor3 :=
  match weight prm with
  | None => Some (T3 (size0 x) (size1 x) (size2 x) normalized)
  | Some w =>
      match bias prm with
      | None => None
      | Some bs =>
          let c1 := broadcast_size (size1 x) (size1 w) in
          if negb (broadcast_ok (size1 x) (size1 w)) then None
          else if negb (broadcast_ok c1 (size1 bs)) then None
          else
            Some (T3 (size0 x) (broadcast_size c1 (size1 bs)) (size2 x)
                     (fun b c l =>
                        let c' := broadcast_index c1 c in
                        normalized b (broadcast_index (size1 x) c') l
                        * get3 w O (broadcast_index (size1 w) c') O
                        + get3 bs O (broadcast_index (size1 bs) c) O))
      end
  end.

End Forward.

(** Both parameters are shaped for [n] features, as [__init__] makes them. *)
Definition affine_for (prm : Params) (n : nat) : Prop :=
  (weight prm = None /\ bias prm = None) \/
  (exists w bs, weight prm = Some w /\ bias prm = Some bs /\
                size1 w = n /\ size1 bs = n).

(** The factor applied to channel [c] after normalisation, and the value
    added to it. *)
Definition weight_at (prm : Params) (c : nat) : R :=
  match weight prm with
  | Some w => get3 w O c O
  | None => 1
  end.

Definition bias_at (prm : Params) (c : nat) : R :=
  match bias prm with
  | Some bs => get3 bs O c O
  | None => 0
  end.

(** A batch of one frame of three channels. *)
Definition frame_1_3_1 : Tensor3 := T3 1 3 1 (fun b c l => INR c).

End ChannelNorm.

(** ** The encoder, [Encoder] *)

Module Encoder.

(* nn.ReLU(True) *)
Definition relu (x : Tensor3) : Tensor3 :=
  T3 (size0 x) (size1 x) (size2 x) (fun b c l => Rmax 0 (get3 x b c l)).

(** The sub-modules of an encoder.  The eight [nn.Conv1d] of
    [self.encoder], in order, and the [nn.LSTM] are torch modules and enter
    as they act on a tensor; [rnn] gives the output sequence of the LSTM.
    The seven [ChannelNorm] are modelled above. *)
Record Modules := mkModules {
  convs : nat -> Tensor3 -> option Tensor3;
  norms : nat -> ChannelNorm.Params;
  rnn : Tensor3 -> option Tensor3 }.

(** What a call reads and may change: the buffers of [self.codebook] and
    the mode of the module. *)
Record State := mkState { codebook : VQ.State; training : bool }.

(** [self.codebook = VQEmbeddingEMA(2, 128, 128)]: [u] is the outcome of
    its [uniform_]. *)
Definition init (u : nat -> nat -> nat -> R) : State :=
  mkState (VQ.init 2 128 128 u) true.

Section Forward.

Variable md : Modules.

(* nn.Conv1d, ChannelNorm, nn.ReLU(True) *)
Definition block (i : nat) (x : Tensor3) : option Tensor3 :=
  match convs md i x with
  | None => None
  | Some y =>
      match ChannelNorm.forward (norms md i) y with
      | None => None
      | Some y' => Some (relu y')
      end
  end.

(** Blocks [i], [i + 1], ..., [i + n - 1] in sequence. *)
Fixpoint blocks (n i : nat) (x : Tensor3) : option Tensor3 :=
  match n with
  | O => Some x
  | S n' =>
      match block i x with
      | None => None
      | Some y => blocks n' (S i) y
      end
  end.

(* self.encoder: seven blocks, then nn.Conv1d(encoder_channels, z_dim, 1) *)
Definition encoder (mels : Tensor3) : option Tensor3 :=
  match blocks 7 0 mels with
  | None => None
  | Some y => convs md 7 y
  end.

(* z.transpose(1, 2) *)
Definition transpose12 (z : Tensor3) : Tensor3 :=
  T3 (size0 z) (size2 z) (size1 z) (fun b l c => get3 z b c l).

(** [forward]: the buffers it leaves and, when it returns,
    [(z, c, loss, perplexity)]. *)
Definition forward (st : State) (mels : Tensor3)
    : State * option (Tensor3 * Tensor3 * R * R) :=
  match encoder mels with
  | None => (st, None)
  | Some z =>
      match VQ.forward VQ.default_config (codebook st) z (training st) with
      | None => (st, None)
      | Some (cb, (zq, loss, perplexity)) =>
          let st' := mkState cb (training st) in
          let zt := transpose12 zq in
          match rnn md zt with
          | None => (st', None)
          | Some c => (st', Some (zt, c, loss, perplexity))
          end
      end
  end.

End Forward.

(** The codebook has the shape [__init__] gave it. *)
Definition codebook_shaped (st : State) : Prop :=
  VQ.N (codebook st) = 2%nat /\ VQ.M (codebook st) = 128%nat /\
  VQ.D (codebook st) = 128%nat.

(** Sub-modules for the samples: channel-preserving convolutions that
    return their input, a last convolution to [z_dim] channels that repeats
    channel 0, fresh norms, and an LSTM that returns its input. *)
Definition sample_modules (z_dim : nat) : Modules :=
  mkModules
    (fun i x => if (i =? 7)%nat
                then Some (T3 (size0 x) z_dim (size2 x)
                              (fun b c l => get3 x b O l))
                else Some x)
    (fun _ => ChannelNorm.init 4 1e-5 true)
    (fun x => Some x).

Definition sample_mels : Tensor3 := T3 1 4 5 (fun b c l => INR (c + l)).

End Encoder.
(** * Properties *)

(** ** Finite sums *)

Lemma sumR_ext n f g :
  (forall i, (i < n)%nat -> f i = g i) -> sumR n f = sumR n g.
Proof.
  induction n as [|n IH]; intros H; simpl; [reflexivity|].
  rewrite IH, H by (intros; try apply H; lia). reflexivity.
Qed.

Lemma sumR_nonneg n f :
  (forall i, (i < n)%nat -> 0 <= f i) -> 0 <= sumR n f.
Proof.
  induction n as [|n IH]; intros H; simpl; [lra|].
  assert (0 <= sumR n f) by (apply IH; intros; apply H; lia).
  assert (0 <= f n) by (apply H; lia). lra.
Qed.

Lemma sumR_le n f g :
  (forall i, (i < n)%nat -> f i <= g i) -> sumR n f <= sumR n g.
Proof.
  induction n as [|n IH]; intros H; simpl; [lra|].
  assert (sumR n f <= sumR n g) by (apply IH; intros; apply H; lia).
  assert (f n <= g n) by (apply H; lia). lra.
Qed.

Lemma sumR_plus n f g :
  sumR n (fun i => f i + g i) = sumR n f + sumR n g.
Proof. induction n as [|n IH]; simpl; [|rewrite IH]; lra. Qed.

Lemma sumR_scal n a f : sumR n (fun i => a * f i) = a * sumR n f.
Proof. induction n as [|n IH]; simpl; [|rewrite IH]; lra. Qed.

Lemma sumR_const n a : sumR n (fun _ => a) = INR n * a.
Proof.
  induction n as [|n IH]; [simpl; lra|].
  rewrite S_INR. simpl. rewrite IH. lra.
Qed.

Lemma sumR_all_zero n f :
  (forall i, (i < n)%nat -> f i = 0) -> sumR n f = 0.
Proof.
  intros H. rewrite (sumR_ext n f (fun _ => 0)) by exact H.
  rewrite sumR_const. lra.
Qed.

Lemma sumR_swap n m (f : nat -> nat -> R) :
  sumR n (fun i => sumR m (fun j => f i j))
  = sumR m (fun j => sumR n (fun i => f i j)).
Proof.
  induction n as [|n IH]; simpl.
  - rewrite sumR_const. lra.
  - rewrite IH. symmetry. apply sumR_plus.
Qed.

(** A sum of non-negative terms vanishes only when every term does. *)
Lemma sumR_zero_terms n f :
  (forall i, (i < n)%nat -> 0 <= f i) -> sumR n f = 0 ->
  forall i, (i < n)%nat -> f i = 0.
Proof.
  induction n as [|n IH]; intros Hpos Hsum i Hi; [lia|].
  simpl in Hsum.
  assert (0 <= sumR n f) by (apply sumR_nonneg; intros; apply Hpos; lia).
  assert (0 <= f n) by (apply Hpos; lia).
  destruct (Nat.eq_dec i n) as [->|Hne]; [lra|].
  apply IH; [intros; apply Hpos; lia|lra|lia].
Qed.

(** The one-hot row of index [j] sums to one. *)
Lemma sumR_one_hot n j :
  (j < n)%nat -> sumR n (fun m => if (j =? m)%nat then 1 else 0) = 1.
Proof.
  induction n as [|n IH]; intros Hj; [lia|]. simpl.
  destruct (Nat.eq_dec j n) as [->|Hne].
  - rewrite Nat.eqb_refl.
    rewrite (sumR_ext n _ (fun _ => 0)).
    + rewrite sumR_const. lra.
    + intros i Hi. destruct (Nat.eqb_spec n i); [lia|reflexivity].
  - rewrite IH by lia. destruct (Nat.eqb_spec j n); [lia|lra].
Qed.

(** ** Row-major index arithmetic *)

Lemma div_mul_add a b c : (c < b)%nat -> ((a * b + c) / b = a)%nat.
Proof.
  intros H. rewrite Nat.div_add_l by lia. rewrite Nat.div_small by lia. lia.
Qed.

Lemma mod_mul_add a b c : (c < b)%nat -> ((a * b + c) mod b = c)%nat.
Proof.
  intros H. rewrite Nat.add_comm, Nat.Div0.mod_add. apply Nat.mod_small, H.
Qed.

(** ** First-minimum selection *)

Lemma argmin_lt M g : (0 < M)%nat -> (argmin M g < M)%nat.
Proof.
  induction M as [|k IH]; intros HM; [lia|].
  destruct k as [|k']; [simpl; lia|].
  change (argmin (S (S k')) g)
    with (let j := argmin (S k') g in
          if Rlt_dec (g (S k')) (g j) then S k' else j).
  cbv zeta. destruct (Rlt_dec _ _); [lia|].
  assert (argmin (S k') g < S k')%nat by (apply IH; lia). lia.
Qed.

(** [argmin] returns a minimum, and every earlier entry is strictly larger. *)
Lemma argmin_spec M g :
  (0 < M)%nat ->
  (forall m, (m < M)%nat -> g (argmin M g) <= g m) /\
  (forall m, (m < argmin M g)%nat -> g (argmin M g) < g m).
Proof.
  induction M as [|k IH]; intros HM; [lia|].
  destruct k as [|k'].
  - simpl. split; intros m Hm; [|lia].
    assert (m = O) by lia. subst. lra.
  - change (argmin (S (S k')) g)
      with (let j := argmin (S k') g in
            if Rlt_dec (g (S k')) (g j) then S k' else j).
    cbv zeta.
    destruct IH as [IHmin IHfirst]; [lia|].
    assert (Hlt : (argmin (S k') g < S k')%nat) by (apply argmin_lt; lia).
    destruct (Rlt_dec (g (S k')) (g (argmin (S k') g))) as [Hless|Hge].
    + split; intros m Hm.
      * destruct (Nat.eq_dec m (S k')) as [->|Hne]; [lra|].
        assert (g (argmin (S k') g) <= g m) by (apply IHmin; lia). lra.
      * assert (g (argmin (S k') g) <= g m) by (apply IHmin; lia). lra.
    + split; intros m Hm.
      * destruct (Nat.eq_dec m (S k')) as [->|Hne]; [lra|].
        apply IHmin. lia.
      * apply IHfirst. exact Hm.
Qed.

(** The two properties of [argmin_spec] determine the index. *)
Lemma argmin_unique M g j :
  (j < M)%nat ->
  (forall m, (m < M)%nat -> g j <= g m) ->
  (forall m, (m < j)%nat -> g j < g m) ->
  argmin M g = j.
Proof.
  intros Hj Hmin Hfirst.
  assert (HM : (0 < M)%nat) by lia.
  destruct (argmin_spec M g HM) as [Amin Afirst].
  pose proof (argmin_lt M g HM) as Alt.
  destruct (Nat.lt_trichotomy (argmin M g) j) as [Hl|[He|Hg]]; [|exact He|].
  - specialize (Hfirst _ Hl). specialize (Amin _ Hj). lra.
  - specialize (Afirst _ Hg). specialize (Hmin _ Alt). lra.
Qed.


(** ** The smoothed entropy sum [sum_m p_m * ln (p_m + e)] of a distribution *)

Lemma sq_nonneg a : 0 <= sq a.
Proof. unfold sq. nra. Qed.

Lemma sq_zero a : sq a = 0 -> a = 0.
Proof. unfold sq. nra. Qed.

Lemma ln_le_minus_one x : 0 < x -> ln x <= x - 1.
Proof.
  intros Hx. pose proof (exp_ineq1_le (ln x)) as H.
  rewrite exp_ln in H by exact Hx. lra.
Qed.

Lemma ln_diff_le u v : 0 < u -> 0 < v -> ln v - ln u <= (v - u) / u.
Proof.
  intros Hu Hv.
  assert (Hq : 0 < v / u) by (apply Rdiv_lt_0_compat; assumption).
  assert (E : ln v = ln (v / u) + ln u).
  { rewrite <- ln_mult by assumption. f_equal. field. lra. }
  pose proof (ln_le_minus_one (v / u) Hq) as H.
  replace ((v - u) / u) with (v / u - 1) by (field; lra). lra.
Qed.

Lemma sumR_minus n f g :
  sumR n (fun i => f i - g i) = sumR n f - sumR n g.
Proof. induction n as [|n IH]; simpl; [|rewrite IH]; lra. Qed.

Lemma sumR_term_le n f i :
  (forall j, (j < n)%nat -> 0 <= f j) -> (i < n)%nat -> f i <= sumR n f.
Proof.
  induction n as [|n IH]; intros Hpos Hi; [lia|]. simpl.
  assert (0 <= sumR n f) by (apply sumR_nonneg; intros; apply Hpos; lia).
  assert (0 <= f n) by (apply Hpos; lia).
  destruct (Nat.eq_dec i n) as [->|Hne]; [lra|].
  assert (f i <= sumR n f) by (apply IH; [intros; apply Hpos; lia|lia]). lra.
Qed.

Lemma sumR_of_bits n f :
  (forall m, (m < n)%nat -> f m = 0 \/ f m = 1) ->
  sumR n f = 0 \/ exists m, (m < n)%nat /\ f m = 1.
Proof.
  induction n as [|n IH]; intros H; [left; reflexivity|].
  destruct (H n) as [Hn|Hn]; [lia| |right; exists n; split; [lia|exact Hn]].
  destruct IH as [Hs|(m & Hm & H1)]; [intros; apply H; lia| |].
  - left. simpl. lra.
  - right. exists m. split; [lia|exact H1].
Qed.

Section SmoothedEntropy.

Variable M : nat.
Variable p : nat -> R.
Variable e : R.
Hypothesis M_pos : (0 < M)%nat.
Hypothesis e_pos : 0 < e.
Hypothesis p_nonneg : forall m, (m < M)%nat -> 0 <= p m.
Hypothesis p_total : sumR M p = 1.

Let a : R := / INR M.
Let Hp_sum : R := sumR M (fun m => p m * ln (p m + e)).

Lemma uniform_mass_pos : 0 < a.
Proof. apply Rinv_0_lt_compat, lt_0_INR, M_pos. Qed.

Lemma uniform_mass_total : INR M * a = 1.
Proof.
  unfold a. apply Rinv_r. apply not_0_INR. lia.
Qed.

Lemma p_le_one m : (m < M)%nat -> p m <= 1.
Proof.
  intros Hm. rewrite <- p_total. apply sumR_term_le; assumption.
Qed.

(** Gap of one term to the bound reached when the term carries all or none
    of the mass. *)
Lemma gap_single_nonneg m :
  (m < M)%nat -> 0 <= p m * ln (1 + e) - p m * ln (p m + e).
Proof.
  intros Hm. pose proof (p_nonneg m Hm) as H0. pose proof (p_le_one m Hm) as H1.
  assert (ln (p m + e) <= ln (1 + e)).
  { destruct (Req_dec (p m) 1) as [->|Hne]; [lra|].
    left. apply ln_increasing; lra. }
  nra.
Qed.

Lemma gap_single_zero m :
  (m < M)%nat -> p m * ln (1 + e) - p m * ln (p m + e) = 0 ->
  p m = 0 \/ p m = 1.
Proof.
  intros Hm Hz. pose proof (p_nonneg m Hm) as H0. pose proof (p_le_one m Hm) as H1.
  destruct (Req_dec (p m) 0) as [|Hne0]; [left; assumption|right].
  destruct (Req_dec (p m) 1) as [|Hne1]; [assumption|exfalso].
  assert (ln (p m + e) < ln (1 + e)) by (apply ln_increasing; lra).
  nra.
Qed.

Lemma entropy_sum_upper : Hp_sum <= ln (1 + e).
Proof.
  assert (H : 0 <= sumR M (fun m => p m * ln (1 + e) - p m * ln (p m + e)))
    by (apply sumR_nonneg; intros; apply gap_single_nonneg; assumption).
  rewrite sumR_minus in H.
  rewrite (sumR_ext M (fun m => p m * ln (1 + e)) (fun m => ln (1 + e) * p m))
    in H by (intros; lra).
  rewrite sumR_scal, p_total in H. fold Hp_sum in H. lra.
Qed.

Lemma entropy_sum_upper_iff :
  Hp_sum = ln (1 + e) <-> exists m, (m < M)%nat /\ p m = 1.
Proof.
  assert (E : sumR M (fun m => p m * ln (1 + e) - p m * ln (p m + e))
              = ln (1 + e) - Hp_sum).
  { rewrite sumR_minus.
    rewrite (sumR_ext M (fun m => p m * ln (1 + e)) (fun m => ln (1 + e) * p m))
      by (intros; lra).
    rewrite sumR_scal, p_total. fold Hp_sum. lra. }
  split.
  - intros HS.
    assert (Hz : forall m, (m < M)%nat -> p m = 0 \/ p m = 1).
    { intros m Hm. apply gap_single_zero; [exact Hm|].
      apply (sumR_zero_terms M
               (fun m => p m * ln (1 + e) - p m * ln (p m + e))).
      - intros; apply gap_single_nonneg; assumption.
      - rewrite E. lra.
      - exact Hm. }
    destruct (sumR_of_bits M p Hz) as [H0|Hex]; [lra|exact Hex].
  - intros (m0 & Hm0 & H1).
    assert (Hothers : forall m, (m < M)%nat -> p m = 0 \/ p m = 1).
    { intros m Hm. destruct (Nat.eq_dec m m0) as [->|Hne]; [right; exact H1|left].
      pose proof (p_nonneg m Hm) as Hge.
      assert (Hle : p m + p m0 <= sumR M p).
      { clear - p_nonneg Hm Hm0 Hne. revert Hm Hm0.
        induction M as [|k IH]; intros Hm Hm0; [lia|]. simpl.
        assert (0 <= sumR k p) by (apply sumR_nonneg; intros; apply p_nonneg; lia).
        destruct (Nat.eq_dec m k) as [->|Hmk].
        - assert (p m0 <= sumR k p)
            by (apply sumR_term_le; [intros; apply p_nonneg; lia|lia]). lra.
        - destruct (Nat.eq_dec m0 k) as [->|Hm0k].
          + assert (p m <= sumR k p)
              by (apply sumR_term_le; [intros; apply p_nonneg; lia|lia]). lra.
          + assert (0 <= p k) by (apply p_nonneg; lia).
            assert (p m + p m0 <= sumR k p).
            { apply IH; try lia. intros; apply p_nonneg; lia. }
            lra. }
      lra. }
    assert (Hsum0 : sumR M (fun m => p m * ln (1 + e) - p m * ln (p m + e)) = 0).
    { rewrite (sumR_ext M _ (fun _ => 0)); [rewrite sumR_const; lra|].
      intros m Hm. destruct (Hothers m Hm) as [-> | ->]; lra. }
    lra.
Qed.

(** Gap of one term to the tangent, at the uniform mass [a], of
    [p |-> p * ln (p + e)]. *)
Lemma gap_uniform_lower m :
  (m < M)%nat ->
  e * sq (p m - a) / ((p m + e) * (a + e))
  <= p m * ln (p m + e) - (p m * ln (a + e) + a * (p m - a) / (a + e)).
Proof.
  intros Hm. pose proof (p_nonneg m Hm) as H0. pose proof uniform_mass_pos as Ha.
  set (u := p m + e). set (v := a + e).
  assert (Hu : 0 < u) by (unfold u; lra).
  assert (Hv : 0 < v) by (unfold v; lra).
  pose proof (ln_diff_le u v Hu Hv) as Hln.
  assert (Hp : p m * (ln v - ln u) <= p m * ((v - u) / u))
    by (apply Rmult_le_compat_l; assumption).
  assert (E : e * sq (p m - a) / (u * v)
              = - (p m * ((v - u) / u)) - a * (p m - a) / v).
  { unfold sq, u, v. field. split; [fold v|fold u]; lra. }
  rewrite E. lra.
Qed.

Lemma gap_uniform_nonneg m :
  (m < M)%nat ->
  0 <= p m * ln (p m + e) - (p m * ln (a + e) + a * (p m - a) / (a + e)).
Proof.
  intros Hm. pose proof (p_nonneg m Hm) as H0. pose proof uniform_mass_pos as Ha.
  apply Rle_trans with (2 := gap_uniform_lower m Hm).
  apply Rmult_le_pos.
  - apply Rmult_le_pos; [lra|apply sq_nonneg].
  - left. apply Rinv_0_lt_compat. apply Rmult_lt_0_compat; lra.
Qed.

Lemma gap_uniform_zero m :
  (m < M)%nat ->
  p m * ln (p m + e) - (p m * ln (a + e) + a * (p m - a) / (a + e)) = 0 ->
  p m = a.
Proof.
  intros Hm Hz. pose proof (p_nonneg m Hm) as H0. pose proof uniform_mass_pos as Ha.
  pose proof (gap_uniform_lower m Hm) as Hlow. rewrite Hz in Hlow.
  assert (Hden : 0 < (p m + e) * (a + e)) by (apply Rmult_lt_0_compat; lra).
  assert (Hnum : e * sq (p m - a) <= 0).
  { apply Rmult_le_reg_r with (/ ((p m + e) * (a + e))).
    - apply Rinv_0_lt_compat, Hden.
    - rewrite Rmult_0_l. exact Hlow. }
  assert (Hsq : sq (p m - a) = 0).
  { pose proof (sq_nonneg (p m - a)). nra. }
  apply sq_zero in Hsq. lra.
Qed.

Lemma gap_uniform_total :
  sumR M (fun m =>
    p m * ln (p m + e) - (p m * ln (a + e) + a * (p m - a) / (a + e)))
  = Hp_sum - ln (a + e).
Proof.
  pose proof uniform_mass_pos as Ha. pose proof uniform_mass_total as HMa.
  rewrite sumR_minus. fold Hp_sum.
  rewrite (sumR_ext M
    (fun m => p m * ln (a + e) + a * (p m - a) / (a + e))
    (fun m => (ln (a + e) + a / (a + e)) * p m + - (a * a / (a + e))))
    by (intros; field; lra).
  rewrite sumR_plus, sumR_scal, sumR_const, p_total.
  replace (INR M * - (a * a / (a + e))) with (- ((INR M * a) * a / (a + e)))
    by (field; lra).
  rewrite HMa. lra.
Qed.

Lemma entropy_sum_lower : ln (a + e) <= Hp_sum.
Proof.
  assert (H : 0 <= Hp_sum - ln (a + e)).
  { rewrite <- gap_uniform_total. apply sumR_nonneg.
    intros; apply gap_uniform_nonneg; assumption. }
  lra.
Qed.

Lemma entropy_sum_lower_iff :
  Hp_sum = ln (a + e) <-> forall m, (m < M)%nat -> p m = a.
Proof.
  split.
  - intros HS m Hm. apply gap_uniform_zero; [exact Hm|].
    apply (sumR_zero_terms M (fun m =>
      p m * ln (p m + e) - (p m * ln (a + e) + a * (p m - a) / (a + e)))).
    + intros; apply gap_uniform_nonneg; assumption.
    + rewrite gap_uniform_total. lra.
    + exact Hm.
  - intros Hall.
    assert (H : Hp_sum - ln (a + e) = 0).
    { rewrite <- gap_uniform_total.
      rewrite (sumR_ext M _ (fun _ => 0)); [rewrite sumR_const; lra|].
      intros m Hm. rewrite (Hall m Hm). unfold Rdiv. lra. }
    lra.
Qed.

End SmoothedEntropy.
(** ** The vector quantizer *)

Module VQProps.
Import VQ.

Lemma vq_forward_returns cfg st x training :
  valid_input st x ->
  forward cfg st x training
  = Some (if training then update cfg st x else st,
          (output st x, loss cfg st x, sumR (N st) (perplexity st x))).
Proof.
  intros (HC & HN & HM & HD). unfold forward.
  rewrite HC, Nat.eqb_refl. simpl.
  destruct (Nat.eqb_spec (N st * D st) 0) as [E|_]; [nia|].
  destruct (Nat.eqb_spec (M st) 0) as [E|_]; [lia|]. reflexivity.
Qed.

(** A call that returns had an input [forward] accepts. *)
Lemma forward_some_valid cfg st x training r :
  forward cfg st x training = Some r -> valid_input st x.
Proof.
  unfold forward, valid_input.
  destruct (Nat.eqb_spec (C x) (N st * D st)) as [HC|]; [simpl|discriminate].
  destruct (Nat.eqb_spec (N st * D st) 0) as [|HND]; [discriminate|].
  destruct (Nat.eqb_spec (M st) 0) as [|HM]; [discriminate|].
  intros _. repeat split; try lia; destruct (N st), (D st); lia.
Qed.

Lemma indices_lt st x n i : (0 < M st)%nat -> (indices st x n i < M st)%nat.
Proof. intros HM. apply argmin_lt. exact HM. Qed.

Lemma encodings_nonneg st x n i m : 0 <= encodings st x n i m.
Proof. unfold encodings. destruct (_ =? _)%nat; lra. Qed.

(** Every input vector is counted once: the assignment counts of a group add
    up to the number of vectors. *)
Lemma assignment_counts_total st x n :
  (0 < M st)%nat ->
  sumR (M st) (fun m => sumR (B x * L x) (fun i => encodings st x n i m))
  = INR (B x * L x).
Proof.
  intros HM. rewrite sumR_swap.
  rewrite (sumR_ext _ _ (fun _ => 1)).
  - rewrite sumR_const. lra.
  - intros i _. unfold encodings. apply sumR_one_hot, indices_lt, HM.
Qed.

Lemma assignment_count_nonneg st x n m :
  0 <= sumR (B x * L x) (fun i => encodings st x n i m).
Proof. apply sumR_nonneg. intros. apply encodings_nonneg. Qed.

(** The total of a group after the decay step (line 36). *)
Lemma n_total_eq cfg st x n :
  (0 < M st)%nat ->
  n_total cfg st x n
  = decay cfg * sumR (M st) (get2 (ema_count st) n)
    + (1 - decay cfg) * INR (B x * L x).
Proof.
  intros HM. unfold n_total, ema_count_decayed.
  rewrite sumR_plus, !sumR_scal, assignment_counts_total by exact HM.
  reflexivity.
Qed.

Lemma ema_count_decayed_nonneg cfg st x n m :
  0 <= decay cfg <= 1 -> counts_nonneg st ->
  (n < N st)%nat -> (m < M st)%nat ->
  0 <= ema_count_decayed cfg st x n m.
Proof.
  intros Hd Hc Hn Hm. unfold ema_count_decayed.
  pose proof (Hc n m Hn Hm). pose proof (assignment_count_nonneg st x n m).
  nra.
Qed.

Lemma n_total_nonneg cfg st x n :
  0 <= decay cfg <= 1 -> counts_nonneg st -> (n < N st)%nat ->
  0 <= n_total cfg st x n.
Proof.
  intros Hd Hc Hn. apply sumR_nonneg. intros m Hm.
  apply ema_count_decayed_nonneg; assumption.
Qed.

(** The denominator of the smoothing step (line 39) is positive. *)
Lemma smoothing_denominator_pos cfg st x n :
  valid_config cfg -> counts_nonneg st -> (n < N st)%nat -> (0 < M st)%nat ->
  0 < n_total cfg st x n + INR (M st) * epsilon cfg.
Proof.
  intros [Hd He] Hc Hn HM.
  assert (0 <= n_total cfg st x n) by (apply n_total_nonneg; [lra|assumption..]).
  assert (0 < INR (M st)) by (apply lt_0_INR; exact HM).
  nra.
Qed.

Lemma ema_count_smoothed_nonneg cfg st x n m :
  valid_config cfg -> counts_nonneg st ->
  (n < N st)%nat -> (m < M st)%nat ->
  0 <= ema_count_smoothed cfg st x n m.
Proof.
  intros Hv Hc Hn Hm. unfold ema_count_smoothed.
  assert (HD : 0 < n_total cfg st x n + INR (M st) * epsilon cfg)
    by (apply smoothing_denominator_pos; [assumption..|lia]).
  destruct Hv as [Hd He].
  assert (0 <= n_total cfg st x n) by (apply n_total_nonneg; [lra|assumption..]).
  assert (0 <= ema_count_decayed cfg st x n m)
    by (apply ema_count_decayed_nonneg; [lra|assumption..]).
  apply Rmult_le_pos; [|assumption].
  apply Rmult_le_pos; [lra|]. left. apply Rinv_0_lt_compat. exact HD.
Qed.

(** Usage counts never go negative. *)
Lemma reachable_counts_nonneg cfg st :
  valid_config cfg -> reachable cfg st -> counts_nonneg st.
Proof.
  intros Hv Hr. induction Hr as [n0 m0 d0 u|st training x st' out Hr IH Hf].
  - intros n m _ _. simpl. lra.
  - pose proof (forward_some_valid _ _ _ _ _ Hf) as Hx.
    rewrite (vq_forward_returns cfg st x training Hx) in Hf.
    injection Hf as Hst _. subst st'.
    destruct training; [|exact IH].
    intros n m Hn Hm. simpl in *.
    apply ema_count_smoothed_nonneg; assumption.
Qed.

(** The buffers keep the shapes [__init__] gave them, so the arithmetic of
    the training branch never broadcasts. *)
Lemma reachable_wf cfg st : reachable cfg st -> wf_state st.
Proof.
  intros Hr. induction Hr as [n0 m0 d0 u|st training x st' out Hr IH Hf].
  - repeat split.
  - pose proof (forward_some_valid _ _ _ _ _ Hf) as Hx.
    rewrite (vq_forward_returns cfg st x training Hx) in Hf.
    injection Hf as Hst _. subst st'.
    destruct training; [repeat split|exact IH].
Qed.

(** The smoothed counts of a group add up to the total the group had before
    smoothing. *)
Lemma smoothing_total cfg st x n :
  0 < n_total cfg st x n + INR (M st) * epsilon cfg ->
  sumR (M st) (ema_count_smoothed cfg st x n) = n_total cfg st x n.
Proof.
  intros HD. unfold ema_count_smoothed.
  set (t := n_total cfg st x n) in *. set (e := epsilon cfg) in *.
  rewrite (sumR_ext _ _
    (fun m => (t / (t + INR (M st) * e)) * (ema_count_decayed cfg st x n m + e))).
  2:{ intros m _. field. lra. }
  rewrite sumR_scal, sumR_plus, sumR_const.
  fold (n_total cfg st x n). fold t. field. lra.
Qed.

(** C6. For every training-mode forward call (smoothing constant positive,
    decay in [0,1), buffers reachable, input accepted) the call returns,
    and for every group the usage counts it stores, i.e. the counts right
    after the Laplace renormalization of line 39, add up exactly to the
    total the group had right before that step (the counts of line 36):
    renormalization preserves the total mass. *)
Theorem renormalization_preserves_total_mass cfg st x :
  valid_config cfg -> reachable cfg st -> valid_input st x ->
  exists st' out,
    forward cfg st x true = Some (st', out) /\
    forall n, (n < N st)%nat ->
      sumR (M st) (get2 (ema_count st') n)
      = sumR (M st) (ema_count_decayed cfg st x n).
Proof.
  intros Hv Hr Hx.
  exists (update cfg st x), (output st x, loss cfg st x, sumR (N st) (perplexity st x)).
  split; [apply (vq_forward_returns cfg st x true Hx)|].
  intros n Hn. simpl.
  apply smoothing_total, smoothing_denominator_pos; try assumption.
  - apply reachable_counts_nonneg with cfg; assumption.
  - apply Hx.
Qed.


(** Shape side conditions at concrete tensors. *)
Ltac shapes :=
  cbv [valid_input B C L N M D codebook_2_4_3 frame_1_6_1 init
       embedding size0 size1 size2]; lia.

Lemma default_config_valid : valid_config default_config.
Proof. unfold valid_config, default_config. simpl. lra. Qed.

Lemma frame_1_6_1_valid : valid_input codebook_2_4_3 frame_1_6_1.
Proof. shapes. Qed.

Lemma renormalization_preserves_total_mass_witness :
  exists st' out,
    forward default_config codebook_2_4_3 frame_1_6_1 true = Some (st', out) /\
    forall n, (n < N codebook_2_4_3)%nat ->
      sumR (M codebook_2_4_3) (get2 (ema_count st') n)
      = sumR (M codebook_2_4_3)
             (ema_count_decayed default_config codebook_2_4_3 frame_1_6_1 n).
Proof.
  apply renormalization_preserves_total_mass.
  - unfold valid_config, default_config. simpl. lra.
  - apply reach_init.
  - shapes.
Defined.

(** With at least one input vector the total of every group is positive
    after the decay step. *)
Lemma n_total_pos cfg st x n :
  valid_config cfg -> counts_nonneg st -> (n < N st)%nat -> (0 < M st)%nat ->
  (0 < B x * L x)%nat ->
  0 < n_total cfg st x n.
Proof.
  intros [Hd He] Hc Hn HM HBL. rewrite n_total_eq by exact HM.
  assert (0 <= sumR (M st) (get2 (ema_count st) n))
    by (apply sumR_nonneg; intros; apply Hc; assumption).
  assert (1 <= INR (B x * L x)).
  { change 1 with (INR 1). apply le_INR. lia. }
  nra.
Qed.

(** The claim as worded fails on an input that holds no vector: a
    training call on the buffers of [__init__], with the default constants,
    accepts a batch of size 0, returns, and leaves the usage counts at
    exactly 0, so line 44 divides by zero. *)
Lemma empty_batch_counts_counterexample :
  valid_config default_config /\
  reachable default_config codebook_2_4_3 /\
  valid_input codebook_2_4_3 frame_0_6_1 /\
  exists st' out,
    forward default_config codebook_2_4_3 frame_0_6_1 true = Some (st', out) /\
    (0 < N st')%nat /\ (0 < M st')%nat /\
    get2 (ema_count st') 0 0 = 0.
Proof.
  assert (Hx : valid_input codebook_2_4_3 frame_0_6_1).
  { cbv [valid_input C N M D codebook_2_4_3 frame_0_6_1 init embedding
         size0 size1 size2]. lia. }
  split; [apply default_config_valid|]. split; [apply reach_init|].
  split; [exact Hx|].
  exists (update default_config codebook_2_4_3 frame_0_6_1),
         (output codebook_2_4_3 frame_0_6_1,
          loss default_config codebook_2_4_3 frame_0_6_1,
          sumR (N codebook_2_4_3) (perplexity codebook_2_4_3 frame_0_6_1)).
  split; [apply (vq_forward_returns _ _ _ true Hx)|].
  split; [cbv [N update embedding embedding_new codebook_2_4_3 init size0]; lia|].
  split; [cbv [M update embedding embedding_new codebook_2_4_3 init size1]; lia|].
  simpl. unfold ema_count_smoothed.
  assert (Ht : n_total default_config codebook_2_4_3 frame_0_6_1 0 = 0).
  { unfold n_total. apply sumR_all_zero. intros m _.
    unfold ema_count_decayed. simpl. lra. }
  rewrite Ht. lra.
Qed.

(** C2, amended. Immediately after every training-mode forward call on a
    batch that holds at least one vector (B >= 1 and L >= 1; decay in [0,1),
    smoothing constant positive, buffers reachable, input accepted), every
    usage count is strictly positive, so the recomputation of the codebook
    does not divide by zero, and every codebook element is the accumulated
    weight divided by the usage count of its entry. *)
Theorem usage_counts_positive_and_codebook_reconciled cfg st x :
  valid_config cfg -> reachable cfg st -> valid_input st x ->
  (0 < B x)%nat -> (0 < L x)%nat ->
  exists st' out,
    forward cfg st x true = Some (st', out) /\
    forall n m, (n < N st')%nat -> (m < M st')%nat ->
      0 < get2 (ema_count st') n m /\
      forall d, (d < D st')%nat ->
        get3 (embedding st') n m d
        = get3 (ema_weight st') n m d / get2 (ema_count st') n m.
Proof.
  intros Hv Hr Hx HB HL.
  exists (update cfg st x), (output st x, loss cfg st x, sumR (N st) (perplexity st x)).
  split; [apply (vq_forward_returns cfg st x true Hx)|].
  intros n m Hn Hm. simpl in Hn, Hm. change (N (update cfg st x)) with (N st) in Hn.
  change (M (update cfg st x)) with (M st) in Hm.
  split; [|intros d _; reflexivity].
  simpl. unfold ema_count_smoothed.
  pose proof (reachable_counts_nonneg cfg st Hv Hr) as Hc.
  assert (Hpos : 0 < n_total cfg st x n)
    by (apply n_total_pos; try assumption; [apply Hx|nia]).
  assert (HD : 0 < n_total cfg st x n + INR (M st) * epsilon cfg)
    by (apply smoothing_denominator_pos; try assumption; apply Hx).
  destruct Hv as [Hd He].
  assert (0 <= ema_count_decayed cfg st x n m).
  { apply ema_count_decayed_nonneg; try assumption. lra. }
  apply Rmult_lt_0_compat; [|exact Hpos].
  apply Rmult_lt_0_compat; [lra|]. apply Rinv_0_lt_compat. exact HD.
Qed.

Lemma usage_counts_positive_and_codebook_reconciled_witness :
  exists st' out,
    forward default_config codebook_2_4_3 frame_1_6_1 true = Some (st', out) /\
    forall n m, (n < N st')%nat -> (m < M st')%nat ->
      0 < get2 (ema_count st') n m /\
      forall d, (d < D st')%nat ->
        get3 (embedding st') n m d
        = get3 (ema_weight st') n m d / get2 (ema_count st') n m.
Proof.
  apply usage_counts_positive_and_codebook_reconciled.
  - unfold valid_config, default_config. simpl. lra.
  - apply reach_init.
  - shapes.
  - shapes.
  - shapes.
Defined.

(** *** Nearest-entry assignment *)

Lemma x_flat_at st x n b l d :
  (l < L x)%nat -> x_flat st x n (b * L x + l) d = input_vector st x n b l d.
Proof.
  intros Hl. unfold x_flat, x_perm, input_vector.
  rewrite div_mul_add, mod_mul_add by exact Hl. reflexivity.
Qed.

Lemma distances_at st x n b l m :
  (l < L x)%nat ->
  distances st x n (b * L x + l) m
  = euclid (D st) (input_vector st x n b l) (code st n m).
Proof.
  intros Hl. unfold distances, euclid. f_equal.
  apply sumR_ext. intros d _. rewrite x_flat_at by exact Hl. reflexivity.
Qed.

Lemma indices_first_nearest st x n b l :
  (0 < M st)%nat -> (l < L x)%nat ->
  first_nearest st n (input_vector st x n b l) (indices st x n (b * L x + l)).
Proof.
  intros HM Hl. unfold indices.
  destruct (argmin_spec (M st) (distances st x n (b * L x + l)) HM)
    as [Hmin Hfirst].
  repeat split.
  - apply argmin_lt, HM.
  - intros m Hm. rewrite <- !distances_at by exact Hl. apply Hmin, Hm.
  - intros m Hm. rewrite <- !distances_at by exact Hl. apply Hfirst, Hm.
Qed.

(** The value [forward] returns at channel [n * D + d]. *)
Lemma output_at st x n b l d :
  (d < D st)%nat -> (l < L x)%nat ->
  get3 (output st x) b (n * D st + d) l
  = get3 (embedding st) n (indices st x n (b * L x + l)) d.
Proof.
  intros Hd Hl. simpl.
  rewrite div_mul_add, mod_mul_add by exact Hd.
  unfold quantized_st, quantized4, quantized. lra.
Qed.

(** C3. For every input of shape (B, C, L) with C = N * D that the call
    accepts, in training and in evaluation mode, the call returns a tensor of
    the input's shape (B, C, L), and for every input vector (group n, batch
    item b, time l) the returned values at channels n*D .. n*D+D-1 are the
    code of group n, in the codebook as it stood when the call started, that
    lies at minimal Euclidean distance from the vector, the first (lowest
    index) such code when several are at minimal distance. *)
Theorem quantized_is_first_nearest_code cfg st x training :
  valid_input st x ->
  exists st' q l p,
    forward cfg st x training = Some (st', (q, l, p)) /\
    size0 q = B x /\ size1 q = C x /\ size2 q = L x /\
    forall n b t, (n < N st)%nat -> (b < B x)%nat -> (t < L x)%nat ->
      exists j,
        first_nearest st n (input_vector st x n b t) j /\
        forall d, (d < D st)%nat ->
          get3 q b (n * D st + d) t = code st n j d.
Proof.
  intros Hx.
  exists (if training then update cfg st x else st),
         (output st x), (loss cfg st x), (sumR (N st) (perplexity st x)).
  split; [apply vq_forward_returns, Hx|].
  repeat split.
  intros n b t Hn Hb Ht. exists (indices st x n (b * L x + t)).
  split.
  - apply indices_first_nearest; [apply Hx|exact Ht].
  - intros d Hd. apply output_at; assumption.
Qed.

Lemma quantized_is_first_nearest_code_witness :
  exists st' q l p,
    forward default_config codebook_2_4_3 frame_1_6_1 true
    = Some (st', (q, l, p)) /\
    size0 q = B frame_1_6_1 /\ size1 q = C frame_1_6_1 /\
    size2 q = L frame_1_6_1 /\
    forall n b t, (n < N codebook_2_4_3)%nat -> (b < B frame_1_6_1)%nat ->
      (t < L frame_1_6_1)%nat ->
      exists j,
        first_nearest codebook_2_4_3 n
          (input_vector codebook_2_4_3 frame_1_6_1 n b t) j /\
        forall d, (d < D codebook_2_4_3)%nat ->
          get3 q b (n * D codebook_2_4_3 + d) t = code codebook_2_4_3 n j d.
Proof.
  apply quantized_is_first_nearest_code. shapes.
Defined.

(** *** Quantizing a codebook entry *)

Lemma euclid_nonneg dim v w : 0 <= euclid dim v w.
Proof. apply sqrt_pos. Qed.

Lemma euclid_same dim v w : same_vector dim v w -> euclid dim v w = 0.
Proof.
  intros H. unfold euclid. rewrite (sumR_ext _ _ (fun _ => 0)).
  - rewrite sumR_const, Rmult_0_r. apply sqrt_0.
  - intros d Hd. rewrite (H d Hd). unfold sq. lra.
Qed.

Lemma euclid_zero dim v w : euclid dim v w = 0 -> same_vector dim v w.
Proof.
  unfold euclid. intros H d Hd.
  assert (Hs : sumR dim (fun d => sq (v d - w d)) = 0).
  { apply sqrt_eq_0; [|exact H]. apply sumR_nonneg. intros. apply sq_nonneg. }
  pose proof (sumR_zero_terms _ _ (fun i _ => sq_nonneg (v i - w i)) Hs d Hd) as Hz.
  apply sq_zero in Hz. lra.
Qed.

(** The index assigned to a vector that is a code of its group: the first
    code identical to it. *)
Lemma first_nearest_of_code st n v j m :
  (m < M st)%nat -> same_vector (D st) v (code st n m) ->
  first_nearest st n v j ->
  (j <= m)%nat /\ same_vector (D st) (code st n j) (code st n m) /\
  forall m', (m' < j)%nat -> ~ same_vector (D st) (code st n m') (code st n m).
Proof.
  intros Hm Hv (Hj & Hmin & Hfirst).
  pose proof (euclid_same _ _ _ Hv) as H0.
  assert (Hj0 : euclid (D st) v (code st n j) = 0).
  { pose proof (Hmin m Hm). pose proof (euclid_nonneg (D st) v (code st n j)). lra. }
  repeat split.
  - destruct (Nat.le_gt_cases j m) as [|Hlt]; [assumption|].
    pose proof (Hfirst m Hlt). lra.
  - intros d Hd. rewrite <- (Hv d Hd). symmetry.
    apply (euclid_zero _ _ _ Hj0 d Hd).
  - intros m' Hm' Hsame.
    assert (euclid (D st) v (code st n m') = 0).
    { apply euclid_same. intros d Hd. rewrite (Hsame d Hd). apply Hv, Hd. }
    pose proof (Hfirst m' Hm'). lra.
Qed.

Lemma channel_split c d0 :
  (0 < d0)%nat -> (c = (c / d0) * d0 + c mod d0)%nat /\ (c mod d0 < d0)%nat.
Proof.
  intros H. split.
  - rewrite Nat.mul_comm. apply Nat.div_mod_eq.
  - apply Nat.mod_upper_bound. lia.
Qed.

Lemma channel_group c n0 d0 :
  (0 < d0)%nat -> (c < n0 * d0)%nat -> (c / d0 < n0)%nat.
Proof. intros H Hc. apply Nat.Div0.div_lt_upper_bound. lia. Qed.

(** The commitment loss vanishes when every input vector is returned as it
    came. *)
Lemma loss_zero cfg st x :
  (forall n b t d, (n < N st)%nat -> (b < B x)%nat -> (t < L x)%nat ->
     (d < D st)%nat -> quantized4 st x n b t d = x_perm st x n b t d) ->
  loss cfg st x = 0.
Proof.
  intros H. unfold loss, e_latent_loss.
  rewrite (sumR_ext _ _ (fun _ => 0)).
  - rewrite sumR_const. unfold Rdiv. lra.
  - intros n Hn. rewrite (sumR_ext _ _ (fun _ => 0)).
    + rewrite sumR_const. lra.
    + intros b Hb. rewrite (sumR_ext _ _ (fun _ => 0)).
      * rewrite sumR_const. lra.
      * intros t Ht. rewrite (sumR_ext _ _ (fun _ => 0)).
        -- rewrite sumR_const. lra.
        -- intros d Hd. rewrite H by assumption. unfold sq. lra.
Qed.

Lemma quantized4_at st x n b t d :
  quantized4 st x n b t d = code st n (indices st x n (b * L x + t)) d.
Proof. reflexivity. Qed.

(** An input vector that is a code of its group comes back unchanged. *)
Lemma code_returned st x n b t m :
  (0 < M st)%nat -> (t < L x)%nat -> (m < M st)%nat ->
  same_vector (D st) (input_vector st x n b t) (code st n m) ->
  same_vector (D st) (code st n (indices st x n (b * L x + t)))
              (input_vector st x n b t).
Proof.
  intros HM Ht Hm Hv d Hd.
  pose proof (indices_first_nearest st x n b t HM Ht) as Hfn.
  destruct (first_nearest_of_code _ _ _ _ _ Hm Hv Hfn) as (_ & Hsame & _).
  rewrite (Hsame d Hd). symmetry. apply Hv, Hd.
Qed.

(** The claim as worded fails on a codebook with two identical codes: the
    input equals code 1, and the index assigned is 0. *)
Lemma code_index_counterexample :
  valid_input codebook_twins frame_zero /\
  (1 < M codebook_twins)%nat /\
  same_vector (D codebook_twins)
    (input_vector codebook_twins frame_zero 0 0 0) (code codebook_twins 0 1) /\
  indices codebook_twins frame_zero 0 (0 * L frame_zero + 0) <> 1%nat.
Proof.
  split; [cbv [valid_input C N M D codebook_twins frame_zero init embedding
               size0 size1 size2]; lia|].
  split; [cbv [M codebook_twins init embedding size1]; lia|].
  split; [intros d _; reflexivity|].
  unfold indices.
  change (M codebook_twins) with 2%nat.
  change (argmin 2 ?g)
    with (let j := argmin 1 g in if Rlt_dec (g 1%nat) (g j) then 1%nat else j).
  cbv zeta.
  destruct (Rlt_dec _ _) as [Hlt|_].
  - exfalso. revert Hlt. unfold distances. simpl. lra.
  - simpl. lia.
Qed.

Lemma output_valid st x : valid_input st x -> valid_input st (output st x).
Proof. intros H. exact H. Qed.

(** Every vector of a quantized output is a code of its group. *)
Lemma output_vector_is_code st x n b t :
  (t < L x)%nat ->
  same_vector (D st) (input_vector st (output st x) n b t)
              (code st n (indices st x n (b * L x + t))).
Proof.
  intros Ht d Hd. unfold input_vector. apply output_at; assumption.
Qed.

(** C10, amended. In evaluation mode the buffers are left as they were and
    the quantizer is idempotent on values: run again on its own output it
    returns that output, with commitment loss 0 (for an input holding at
    least one vector).  An input vector equal to a code m of its group is
    returned unchanged; the index assigned to it is the lowest index of a
    code identical to code m, hence m itself exactly when no earlier code of
    the group is identical to code m; and when every input vector is a code
    of its group the commitment loss is 0. *)
Theorem eval_quantizer_idempotent cfg st x :
  valid_input st x ->
  exists q l p,
    forward cfg st x false = Some (st, (q, l, p)) /\
    (exists q' l' p',
       forward cfg st q false = Some (st, (q', l', p')) /\
       teq3 q' q /\ ((0 < B x)%nat -> (0 < L x)%nat -> l' = 0)) /\
    (forall n b t m,
       (n < N st)%nat -> (b < B x)%nat -> (t < L x)%nat -> (m < M st)%nat ->
       same_vector (D st) (input_vector st x n b t) (code st n m) ->
       let j := indices st x n (b * L x + t) in
       (forall d, (d < D st)%nat ->
          get3 q b (n * D st + d) t = get3 x b (n * D st + d) t) /\
       (j <= m)%nat /\
       same_vector (D st) (code st n j) (code st n m) /\
       (forall m', (m' < j)%nat ->
          ~ same_vector (D st) (code st n m') (code st n m)) /\
       ((forall m', (m' < m)%nat ->
           ~ same_vector (D st) (code st n m') (code st n m)) -> j = m)) /\
    ((0 < B x)%nat -> (0 < L x)%nat ->
     (forall n b t, (n < N st)%nat -> (b < B x)%nat -> (t < L x)%nat ->
        exists m, (m < M st)%nat /\
                  same_vector (D st) (input_vector st x n b t) (code st n m)) ->
     l = 0).
Proof.
  intros Hx. pose proof Hx as (HC & HN & HM & HD).
  exists (output st x), (loss cfg st x), (sumR (N st) (perplexity st x)).
  split; [apply (vq_forward_returns cfg st x false Hx)|].
  split; [|split].
  - exists (output st (output st x)), (loss cfg st (output st x)),
           (sumR (N st) (perplexity st (output st x))).
    split; [apply (vq_forward_returns cfg st (output st x) false), output_valid, Hx|].
    assert (Hback : forall n b t d,
      (t < L x)%nat -> (d < D st)%nat ->
      code st n (indices st (output st x) n (b * L (output st x) + t)) d
      = get3 (output st x) b (n * D st + d) t).
    { intros n b t d Ht Hd.
      apply (code_returned st (output st x) n b t
               (indices st x n (b * L x + t)) HM Ht).
      - apply indices_lt, HM.
      - apply output_vector_is_code, Ht.
      - exact Hd. }
    split.
    + repeat split. intros i c k Hi Hc Hk.
      change (size1 (output st (output st x))) with (C x) in Hc.
      change (size2 (output st (output st x))) with (L x) in Hk.
      rewrite HC in Hc.
      destruct (channel_split c (D st) HD) as [Hsplit Hmod].
      rewrite Hsplit.
      rewrite (output_at st (output st x)) by assumption.
      apply Hback; assumption.
    + intros _ _. apply loss_zero. intros n b t d Hn Hb Ht Hd.
      rewrite quantized4_at. apply Hback; assumption.
  - intros n b t m Hn Hb Ht Hm Hv j.
    pose proof (indices_first_nearest st x n b t HM Ht) as Hfn.
    destruct (first_nearest_of_code _ _ _ _ _ Hm Hv Hfn) as (Hle & Hsame & Hfirst).
    split; [|split; [exact Hle|split; [exact Hsame|split; [exact Hfirst|]]]].
    + intros d Hd. rewrite output_at by assumption.
      apply (code_returned st x n b t m HM Ht Hm Hv d Hd).
    + intros Hdistinct.
      destruct (Nat.eq_dec j m) as [E|Hne]; [exact E|].
      exfalso. apply (Hdistinct j); [fold j in Hle; lia|exact Hsame].
  - intros _ _ Hall. apply loss_zero. intros n b t d Hn Hb Ht Hd.
    destruct (Hall n b t Hn Hb Ht) as (m & Hm & Hv).
    rewrite quantized4_at.
    apply (code_returned st x n b t m HM Ht Hm Hv d Hd).
Qed.

Lemma eval_quantizer_idempotent_witness :
  exists q l p,
    forward default_config codebook_2_4_3 frame_1_6_1 false
    = Some (codebook_2_4_3, (q, l, p)) /\
    exists q' l' p',
      forward default_config codebook_2_4_3 q false
      = Some (codebook_2_4_3, (q', l', p')) /\
      teq3 q' q /\ l' = 0.
Proof.
  destruct (eval_quantizer_idempotent default_config codebook_2_4_3 frame_1_6_1)
    as (q & l & p & Hf & (q' & l' & p' & Hf' & Heq & Hl) & _).
  - shapes.
  - exists q, l, p. split; [exact Hf|].
    exists q', l', p'. split; [exact Hf'|]. split; [exact Heq|].
    apply Hl; shapes.
Defined.

(** *** Perplexity *)

Lemma exp_le x y : x <= y -> exp x <= exp y.
Proof.
  intros [Hlt| ->]; [left; apply exp_increasing, Hlt|right; reflexivity].
Qed.

Lemma exp_neg_ln v : 0 < v -> exp (- ln v) = / v.
Proof. intros Hv. rewrite exp_Ropp, exp_ln by exact Hv. reflexivity. Qed.

Lemma avg_probs_nonneg st x n m : 0 <= avg_probs st x n m.
Proof.
  unfold avg_probs. apply Rmult_le_pos; [apply assignment_count_nonneg|].
  destruct (B x * L x)%nat as [|k]; [simpl; rewrite Rinv_0; lra|].
  left. apply Rinv_0_lt_compat, lt_0_INR. lia.
Qed.

(** The usage distribution of a group adds up to one. *)
Lemma avg_probs_total st x n :
  (0 < M st)%nat -> (0 < B x * L x)%nat ->
  sumR (M st) (avg_probs st x n) = 1.
Proof.
  intros HM HBL. unfold avg_probs.
  rewrite (sumR_ext _ _
    (fun m => / INR (B x * L x)
              * sumR (B x * L x) (fun i => encodings st x n i m)))
    by (intros; unfold Rdiv; lra).
  rewrite sumR_scal, assignment_counts_total by exact HM.
  apply Rinv_l, not_0_INR. lia.
Qed.

Lemma uniform_bound_eq k :
  (0 < k)%nat -> / (/ INR k + 1e-10) = INR k / (1 + INR k * 1e-10).
Proof.
  intros Hk. assert (0 < INR k) by (apply lt_0_INR; exact Hk).
  field. split; nra.
Qed.

Section GroupPerplexity.

Variable st : State.
Variable x : Tensor3.
Variable n : nat.
Hypothesis M_pos : (0 < M st)%nat.
Hypothesis nonempty : (0 < B x * L x)%nat.

Let ent : R :=
  sumR (M st) (fun m => avg_probs st x n m * ln (avg_probs st x n m + 1e-10)).

Lemma eps_pos : 0 < 1e-10.
Proof. lra. Qed.

Lemma ent_upper : ent <= ln (1 + 1e-10).
Proof.
  apply entropy_sum_upper; try assumption; try apply eps_pos.
  - intros; apply avg_probs_nonneg.
  - apply avg_probs_total; assumption.
Qed.

Lemma ent_lower : ln (/ INR (M st) + 1e-10) <= ent.
Proof.
  apply entropy_sum_lower; try assumption; try apply eps_pos.
  - intros; apply avg_probs_nonneg.
  - apply avg_probs_total; assumption.
Qed.

Lemma ent_upper_iff : ent = ln (1 + 1e-10) <-> single_code_usage st x n.
Proof.
  apply entropy_sum_upper_iff; try assumption; try apply eps_pos.
  - intros; apply avg_probs_nonneg.
  - apply avg_probs_total; assumption.
Qed.

Lemma ent_lower_iff : ent = ln (/ INR (M st) + 1e-10) <-> uniform_usage st x n.
Proof.
  apply entropy_sum_lower_iff; try assumption; try apply eps_pos.
  - intros; apply avg_probs_nonneg.
  - apply avg_probs_total; assumption.
Qed.

Lemma uniform_arg_pos : 0 < / INR (M st) + 1e-10.
Proof.
  assert (0 < / INR (M st)) by (apply Rinv_0_lt_compat, lt_0_INR, M_pos). lra.
Qed.

Lemma perplexity_lower : / (1 + 1e-10) <= perplexity st x n.
Proof.
  rewrite <- exp_neg_ln by lra. apply exp_le.
  pose proof ent_upper. unfold ent in *. lra.
Qed.

Lemma perplexity_upper :
  perplexity st x n <= INR (M st) / (1 + INR (M st) * 1e-10).
Proof.
  rewrite <- uniform_bound_eq by exact M_pos.
  rewrite <- exp_neg_ln by apply uniform_arg_pos. apply exp_le.
  pose proof ent_lower. unfold ent in *. lra.
Qed.

Lemma perplexity_single_iff :
  perplexity st x n = / (1 + 1e-10) <-> single_code_usage st x n.
Proof.
  rewrite <- ent_upper_iff. rewrite <- exp_neg_ln by lra. unfold perplexity.
  fold ent. split.
  - intros H. apply exp_inv in H. lra.
  - intros H. rewrite H. reflexivity.
Qed.

Lemma perplexity_uniform_iff :
  perplexity st x n = INR (M st) / (1 + INR (M st) * 1e-10)
  <-> uniform_usage st x n.
Proof.
  rewrite <- ent_lower_iff. rewrite <- uniform_bound_eq by exact M_pos.
  rewrite <- exp_neg_ln by apply uniform_arg_pos. unfold perplexity.
  fold ent. split.
  - intros H. apply exp_inv in H. lra.
  - intros H. rewrite H. reflexivity.
Qed.

End GroupPerplexity.

(** A batch of a single vector puts all the mass of every group on the code
    assigned to that vector. *)
Lemma one_vector_single_code st x n :
  (0 < M st)%nat -> (B x * L x = 1)%nat -> single_code_usage st x n.
Proof.
  intros HM H1. exists (indices st x n 0). split; [apply indices_lt, HM|].
  unfold avg_probs. rewrite H1. simpl. unfold encodings.
  rewrite Nat.eqb_refl. lra.
Qed.

(** The perplexity formula in exact arithmetic.  The reals carry the
    constant 1e-10 of line 52 through the logarithm, so the two ends of the
    range are 1 / (1 + 1e-10) and M / (1 + M * 1e-10); they differ from 1
    and from M by a relative 1e-10, which is below the resolution of the
    float32 values the program computes with.  How the program's perplexity
    compares with 1 and with M is decided by that rounding and is not
    settled by these lemmas. *)
Lemma perplexity_point_mass :
  valid_input codebook_2_4_3 frame_1_6_1 /\
  perplexity codebook_2_4_3 frame_1_6_1 0 = / (1 + 1e-10).
Proof.
  split; [shapes|].
  apply perplexity_single_iff; [shapes|shapes|].
  apply one_vector_single_code; shapes.
Qed.

Lemma perplexity_exact_range cfg st x training :
  valid_input st x -> (0 < B x)%nat -> (0 < L x)%nat ->
  exists st' q l p,
    forward cfg st x training = Some (st', (q, l, p)) /\
    p = sumR (N st) (perplexity st x) /\
    forall n, (n < N st)%nat ->
      / (1 + 1e-10) <= perplexity st x n
                    <= INR (M st) / (1 + INR (M st) * 1e-10) /\
      (perplexity st x n = INR (M st) / (1 + INR (M st) * 1e-10)
       <-> uniform_usage st x n) /\
      (perplexity st x n = / (1 + 1e-10) <-> single_code_usage st x n).
Proof.
  intros Hx HB HL. pose proof Hx as (_ & _ & HM & _).
  assert (HBL : (0 < B x * L x)%nat) by nia.
  exists (if training then update cfg st x else st),
         (output st x), (loss cfg st x), (sumR (N st) (perplexity st x)).
  split; [apply vq_forward_returns, Hx|]. split; [reflexivity|].
  intros n _. repeat split.
  - apply perplexity_lower; assumption.
  - apply perplexity_upper; assumption.
  - apply perplexity_uniform_iff; assumption.
  - apply perplexity_uniform_iff; assumption.
  - apply perplexity_single_iff; assumption.
  - apply perplexity_single_iff; assumption.
Qed.
End VQProps.

(** ** The contrastive loss *)

Module CPCProps.
Import CPC.

(** *** Negative sampling *)

Lemma randint_val_range low high raw :
  (low < high)%Z ->
  (low <= randint_val low high raw < high)%Z.
Proof.
  intros H. unfold randint_val.
  pose proof (Z.mod_pos_bound (Z.of_nat raw) (high - low)). lia.
Qed.

(** An offset in [1, len) moves every index of [0, len) to another index of
    [0, len). *)
Lemma offset_mod_moves (len r t : Z) :
  (1 <= r < len)%Z -> (0 <= t < len)%Z ->
  (0 <= (r + t) mod len < len)%Z /\ ((r + t) mod len <> t)%Z.
Proof.
  intros Hr Ht. split; [apply Z.mod_pos_bound; lia|].
  intros E.
  pose proof (Z.div_mod (r + t) len ltac:(lia)) as Hdm. rewrite E in Hdm.
  assert (Hq : (r = len * ((r + t) / len))%Z) by lia.
  assert ((r + t) / len <= 0 \/ 1 <= (r + t) / len)%Z as [Hle|Hge] by lia; nia.
Qed.

(** C1. For every negative-sampling construction of a horizon over a window
    of length length = T - K >= 2, and every (speaker, utterance,
    negative-slot, time) tuple with the time inside the window: the offset
    drawn lies in [1, length), and the sampled time index, the offset added
    to the time index and reduced modulo length, lies in [0, length) and
    never equals the time index of the tuple. *)
Theorem sampled_time_differs cfg env z k s u n t :
  (2 <= length cfg z)%Z -> (t < Z.to_nat (length cfg z))%nat ->
  (1 <= seq_draw cfg env z k s u n t < length cfg z)%Z /\
  (0 <= seq_index cfg env z k s u n t < length cfg z)%Z /\
  seq_index cfg env z k s u n t <> Z.of_nat t.
Proof.
  intros Hlen Ht.
  assert (Hdraw : (1 <= seq_draw cfg env z k s u n t < length cfg z)%Z)
    by (apply randint_val_range; lia).
  split; [exact Hdraw|].
  apply offset_mod_moves; [exact Hdraw|lia].
Qed.

Lemma sampled_time_differs_witness :
  (1 <= seq_draw sample_config sample_env sample_z 1 0 1 2 3
     < length sample_config sample_z)%Z /\
  (0 <= seq_index sample_config sample_env sample_z 1 0 1 2 3
     < length sample_config sample_z)%Z /\
  seq_index sample_config sample_env sample_z 1 0 1 2 3 <> Z.of_nat 3.
Proof.
  apply sampled_time_differs.
  - vm_compute. discriminate.
  - vm_compute. lia.
Defined.

(** *** The latents, speaker by speaker *)

Lemma T'_layout cfg z : z_layout cfg z -> T' cfg z = size1 z.
Proof.
  intros (H0 & H2 & HS & HU & HD). unfold T', z_numel, z_rest, S_, U.
  rewrite H0, H2.
  replace (n_speakers cfg * n_utterances_per_speaker cfg * size1 z * z_dim cfg)%nat
    with (size1 z * (n_speakers cfg * n_utterances_per_speaker cfg * z_dim cfg))%nat
    by lia.
  apply Nat.div_mul. nia.
Qed.

Lemma reshape_ok_layout cfg z : z_layout cfg z -> reshape_ok cfg z = true.
Proof.
  intros (H0 & H2 & HS & HU & HD). unfold reshape_ok, z_numel, z_rest, S_, U.
  rewrite H0, H2.
  replace (n_speakers cfg * n_utterances_per_speaker cfg * size1 z * z_dim cfg)%nat
    with (size1 z * (n_speakers cfg * n_utterances_per_speaker cfg * z_dim cfg))%nat
    by lia.
  rewrite Nat.Div0.mod_mul, Nat.eqb_refl, andb_true_r.
  apply Nat.ltb_lt. nia.
Qed.

(** [z.reshape(S, U, -1, z_dim)] at speaker [s], utterance [u]: row
    [s * U + u] of the batch. *)
Lemma z4_layout cfg z s u t d :
  z_layout cfg z -> (t < size1 z)%nat -> (d < z_dim cfg)%nat ->
  z4 cfg z s u t d = get3 z (s * U cfg + u) t d.
Proof.
  intros Hz Ht Hd. pose proof Hz as (H0 & H2 & HS & HU & HD).
  unfold z4, z_flat. rewrite (T'_layout cfg z Hz), H2.
  set (r := (s * U cfg + u)%nat). set (zd := z_dim cfg) in *.
  set (T := size1 z) in *.
  assert (E1 : (((r * T + t) * zd + d) / (T * zd) = r)%nat).
  { replace ((r * T + t) * zd + d)%nat with (r * (T * zd) + (t * zd + d))%nat
      by lia.
    apply div_mul_add. nia. }
  assert (E2 : (((r * T + t) * zd + d) / zd = r * T + t)%nat)
    by (apply div_mul_add; exact Hd).
  assert (E3 : (((r * T + t) * zd + d) mod zd = d)%nat)
    by (apply mod_mul_add; exact Hd).
  rewrite E1, E2, E3, (mod_mul_add r T t Ht). reflexivity.
Qed.

Lemma shift_start_in_range cfg z k :
  z_layout cfg z -> (k <= size1 z)%nat -> shift_start cfg z k = k.
Proof.
  intros Hz Hk. unfold shift_start, slice_start.
  rewrite (T'_layout cfg z Hz). lia.
Qed.

(** For a horizon [k <= K] the slice [k : length + k] is [length] long. *)
Lemma shift_len_in_range cfg z k :
  z_layout cfg z -> (k <= K cfg)%nat -> (0 <= length cfg z)%Z ->
  shift_len cfg z k = Z.to_nat (length cfg z).
Proof.
  intros Hz Hk Hlen. unfold shift_len, slice_stop, shift_start, slice_start.
  rewrite (T'_layout cfg z Hz). unfold length in *.
  destruct (Z.ltb_spec (Z.of_nat (size1 z) - Z.of_nat (K cfg) + Z.of_nat k) 0);
    lia.
Qed.

Lemma batch_index_range cfg env k u n :
  (0 < U cfg)%nat ->
  (Z.to_nat (batch_index cfg env k u n) < U cfg)%nat.
Proof.
  intros HU. unfold batch_index.
  pose proof (randint_val_range 0 (Z.of_nat (U cfg)) (raw_batch env k u n)).
  lia.
Qed.

Lemma speaker_of_row s u0 U0 : (u0 < U0)%nat -> ((s * U0 + u0) / U0 = s)%nat.
Proof. apply div_mul_add. Qed.

(** C7. For a horizon k over latents in the configured layout (window length
    at least 2) there is, for each (utterance, negative-slot) pair, one
    utterance index, the same for all speakers and all time positions, such
    that every negative drawn for a target (speaker s, utterance u, time t)
    in slot n is a latent of row s * U + that index of the batch, a row of
    speaker s, at a time of the shifted window other than t. *)
Theorem negatives_within_speaker cfg env z k :
  z_layout cfg z -> (1 <= k <= K cfg)%nat -> (2 <= length cfg z)%Z ->
  exists utt : nat -> nat -> nat,
    forall s u n t,
      (s < S_ cfg)%nat -> (u < U cfg)%nat -> (n < n_negatives cfg)%nat ->
      (t < Z.to_nat (length cfg z))%nat ->
      (utt u n < U cfg)%nat /\
      ((s * U cfg + utt u n) / U cfg = s)%nat /\
      exists t', (t' < Z.to_nat (length cfg z))%nat /\ t' <> t /\
        forall d, (d < z_dim cfg)%nat ->
          z_negatives cfg env z k s u n t d
          = get3 z (s * U cfg + utt u n) (k + t') d.
Proof.
  intros Hz Hk Hlen. pose proof Hz as (H0 & H2 & HS & HU & HD).
  exists (fun u n => Z.to_nat (batch_index cfg env k u n)).
  intros s u n t Hs Hu Hn Ht.
  pose proof (batch_index_range cfg env k u n HU) as Hb.
  split; [exact Hb|]. split; [apply speaker_of_row, Hb|].
  exists (Z.to_nat (seq_index cfg env z k s u n t)).
  assert (Hidx : (0 <= seq_index cfg env z k s u n t < length cfg z)%Z /\
                 seq_index cfg env z k s u n t <> Z.of_nat t).
  { unfold seq_index. apply offset_mod_moves; [|lia].
    apply randint_val_range. lia. }
  destruct Hidx as [Hrange Hne].
  split; [lia|]. split; [lia|].
  intros d Hd. unfold z_negatives, z_shift, speaker_index.
  assert (Hk' : (k <= size1 z)%nat) by (unfold length in Hlen; lia).
  rewrite (shift_start_in_range cfg z k Hz Hk').
  apply z4_layout; [exact Hz| |exact Hd].
  unfold length in *. lia.
Qed.

Lemma negatives_within_speaker_witness :
  exists utt : nat -> nat -> nat,
    forall s u n t,
      (s < S_ sample_config)%nat -> (u < U sample_config)%nat ->
      (n < n_negatives sample_config)%nat ->
      (t < Z.to_nat (length sample_config sample_z))%nat ->
      (utt u n < U sample_config)%nat /\
      ((s * U sample_config + utt u n) / U sample_config = s)%nat /\
      exists t', (t' < Z.to_nat (length sample_config sample_z))%nat /\
        t' <> t /\
        forall d, (d < z_dim sample_config)%nat ->
          z_negatives sample_config sample_env sample_z 1 s u n t d
          = get3 sample_z (s * U sample_config + utt u n) (1 + t') d.
Proof.
  apply negatives_within_speaker.
  - unfold z_layout. simpl. lia.
  - vm_compute. lia.
  - vm_compute. discriminate.
Defined.

(** *** The cached mask *)

(** Entry (i, j) of the generated mask: 0 at and below the diagonal, -inf
    above it. *)
Lemma mask_entry sz i j :
  mask_at (generate_square_subsequent_mask sz) i j
  = if (j <=? i)%nat then Fin 0 else NegInf.
Proof.
  simpl. unfold mask_fill_zero, mask_fill_inf, mask_float, mask_bool, triu_ones.
  destruct (j <=? i)%nat; destruct (Req_dec_T _ _) as [E|E]; simpl;
    try reflexivity; exfalso; lra.
Qed.

(** What the positional encoding returns has the sequence length of the
    sliced context. *)
Lemma positional_size0 cfg env c c2 :
  positional cfg env c = Some c2 -> size0 c2 = c_len cfg c.
Proof.
  unfold positional, positional_forward.
  destruct (negb _); [discriminate|]. destruct (negb _); [discriminate|].
  intros H. injection H as <-. reflexivity.
Qed.

Lemma positional_shape cfg env c c2 :
  size2 c = z_dim cfg -> positional cfg env c = Some c2 ->
  same_shape c2 (c_sliced cfg c).
Proof.
  intros H2. unfold positional, positional_forward.
  destruct (negb _); [discriminate|]. destruct (negb _); [discriminate|].
  intros H. injection H as <-. repeat split. simpl.
  destruct (Nat.eqb_spec (size2 c) 1); congruence.
Qed.

Lemma positional_returns cfg env c :
  size2 c = z_dim cfg -> (c_len cfg c <= 200)%nat ->
  exists c2, positional cfg env c = Some c2.
Proof.
  intros H2 Hlen. unfold positional, positional_forward.
  change (size0 (c_sliced cfg c)) with (c_len cfg c).
  change (size2 (c_sliced cfg c)) with (size2 c).
  destruct (Nat.leb_spec (c_len cfg c) 200); [simpl|lia].
  rewrite H2, Nat.eqb_refl. simpl. eexists. reflexivity.
Qed.

Lemma positional_raises cfg env c :
  (200 < c_len cfg c)%nat -> positional cfg env c = None.
Proof.
  intros Hlen. unfold positional, positional_forward.
  change (size0 (c_sliced cfg c)) with (c_len cfg c).
  destruct (Nat.leb_spec (c_len cfg c) 200); [lia|reflexivity].
Qed.

(** A call never replaces a mask that is already cached. *)
Lemma step_keeps_mask cfg st cl m :
  mask st = Some m -> mask (step cfg st cl) = Some m.
Proof.
  intros Hm. unfold step, forward.
  destruct (reshape_ok cfg (call_z cl)); simpl; [|exact Hm].
  destruct (positional cfg (call_env cl) (call_c cl)); simpl;
    [|exact Hm].
  rewrite Hm. reflexivity.
Qed.

Lemma run_keeps_mask cfg cls : forall st m,
  mask st = Some m -> mask (run cfg st cls) = Some m.
Proof.
  induction cls as [|cl cls IH]; intros st m Hm; simpl; [exact Hm|].
  apply IH, step_keeps_mask, Hm.
Qed.

(** The first call that reaches line 188 caches the mask of its context. *)
Lemma step_caches_mask cfg cl c2 :
  reshape_ok cfg (call_z cl) = true ->
  positional cfg (call_env cl) (call_c cl) = Some c2 ->
  mask (step cfg init cl)
  = Some (generate_square_subsequent_mask (size0 c2)).
Proof.
  intros Hr Hp. unfold step, forward. rewrite Hr, Hp. reflexivity.
Qed.

Lemma sample_layout : z_layout sample_config sample_z.
Proof. unfold z_layout. simpl. lia. Qed.

Lemma sample_c_len : c_len sample_config sample_z = 8%nat.
Proof. reflexivity. Qed.


(** *** When a call raises *)

Lemma mapM_all {A E : Type} (f : A -> option E) (g : A -> E) l :
  (forall a, In a l -> f a = Some (g a)) -> mapM f l = Some (map g l).
Proof.
  induction l as [|a l IH]; intros H; simpl; [reflexivity|].
  rewrite (H a) by (left; reflexivity).
  rewrite IH by (intros; apply H; right; assumption). reflexivity.
Qed.

(** With a window shorter than 2, [torch.randint(1, length, ...)] has an
    empty range: no horizon completes. *)
Lemma horizon_raises_short_window cfg env z c2 m k :
  (length cfg z < 2)%Z -> horizon cfg env z c2 m k = None.
Proof.
  intros Hlen. unfold horizon.
  destruct (predictors env (k - 1) c2 m) as [p|]; [|reflexivity].
  destruct (view_ok cfg p); simpl; [|reflexivity].
  destruct (randint_ok 0 (Z.of_nat (U cfg))); simpl; [|reflexivity].
  unfold randint_ok at 1.
  destruct (Z.ltb_spec 1 (length cfg z)); [lia|reflexivity].
Qed.

Lemma forward_raises cfg env z c st :
  K cfg = 0%nat \/ (length cfg z < 2)%Z ->
  snd (forward cfg env z c st) = None.
Proof.
  intros H. unfold forward.
  destruct (reshape_ok cfg z); simpl; [|reflexivity].
  destruct (positional cfg env c) as [c2|]; simpl; [|reflexivity].
  destruct (K cfg) as [|k'] eqn:EK.
  - reflexivity.
  - destruct H as [H|H]; [discriminate|].
    change (seq 1 (S k')) with (1%nat :: seq 2 k'). simpl mapM.
    rewrite horizon_raises_short_window by exact H. reflexivity.
Qed.

Lemma c_sliced_size0 cfg z c :
  c_layout cfg z c -> (1 <= K cfg)%nat -> (0 <= length cfg z)%Z ->
  size0 (c_sliced cfg c) = Z.to_nat (length cfg z).
Proof.
  intros (_ & H1 & _) HK Hlen. simpl. unfold c_len, length in *.
  destruct (Nat.eqb_spec (K cfg) 0); lia.
Qed.

(** A horizon whose transformer layer returned a tensor shaped as the
    context completes. *)
Lemma horizon_returns cfg env z c2 m k p :
  z_layout cfg z -> (1 <= k <= K cfg)%nat -> (2 <= length cfg z)%Z ->
  predictors env (k - 1) c2 m = Some p ->
  size0 p = Z.to_nat (length cfg z) ->
  size1 p = (S_ cfg * U cfg)%nat -> size2 p = z_dim cfg ->
  horizon cfg env z c2 m k
  = Some (cross_entropy cfg env z k p, accuracy cfg env z k p).
Proof.
  intros Hz Hk Hlen Hp H0 H1 H2. pose proof Hz as (_ & _ & HS & HU & HD).
  unfold horizon. rewrite Hp.
  unfold view_ok, z_rest, broadcast_ok. rewrite H0, H1, H2, !Nat.eqb_refl.
  assert (E : (0 <? S_ cfg * U cfg * z_dim cfg)%nat = true)
    by (apply Nat.ltb_lt; unfold S_, U; nia).
  rewrite E. simpl.
  unfold randint_ok.
  destruct (Z.ltb_spec 0 (Z.of_nat (U cfg))); [simpl|unfold U in *; lia].
  destruct (Z.ltb_spec 1 (length cfg z)); [simpl|lia].
  rewrite (shift_len_in_range cfg z k Hz) by lia.
  rewrite Nat.eqb_refl. reflexivity.
Qed.

Lemma predicted_shape cfg env z c st c2 k :
  z_layout cfg z -> c_layout cfg z c -> (1 <= K cfg)%nat ->
  (2 <= length cfg z)%Z -> positional cfg env c = Some c2 ->
  layers_return cfg env st c2 ->
  (1 <= k <= K cfg)%nat ->
  let p := predicted env c2 (mask_in_effect st c2) k in
  predictors env (k - 1) c2 (mask_in_effect st c2) = Some p /\
  size0 p = Z.to_nat (length cfg z) /\
  size1 p = (S_ cfg * U cfg)%nat /\ size2 p = z_dim cfg.
Proof.
  intros Hz Hc HK Hlen Hpos Hpred Hk p.
  destruct (positional_shape cfg env c c2 ltac:(apply Hc) Hpos) as (S0 & S1 & S2).
  destruct (Hpred k Hk) as (q & Hq & (Q0 & Q1 & Q2)).
  assert (Ep : p = q) by (unfold p, predicted; rewrite Hq; reflexivity).
  rewrite Ep. split; [exact Hq|].
  destruct Hz as (Z0 & _). destruct Hc as (C0 & C1 & C2).
  rewrite Q0, Q1, Q2, S0, S1, S2.
  rewrite (c_sliced_size0 cfg z c) by (try lia; repeat split; assumption).
  simpl. unfold S_, U. repeat split; congruence.
Qed.

(** A call on tensors of the configured layout, with at least one horizon
    and a window of length at least 2, whose positional encoding and
    transformer layers return: what it leaves and what it returns. *)
Lemma cpc_forward_returns cfg env z c st c2 :
  z_layout cfg z -> c_layout cfg z c -> (1 <= K cfg)%nat ->
  (2 <= length cfg z)%Z -> positional cfg env c = Some c2 ->
  layers_return cfg env st c2 ->
  let m := mask_in_effect st c2 in
  forward cfg env z c st
  = (mkState (Some m),
     Some (list_mean (map (fun k => cross_entropy cfg env z k (predicted env c2 m k))
                          (seq 1 (K cfg))),
           map (fun k => accuracy cfg env z k (predicted env c2 m k))
               (seq 1 (K cfg)))).
Proof.
  intros Hz Hc HK Hlen Hpos Hm m.
  unfold forward. rewrite (reshape_ok_layout cfg z Hz), Hpos. simpl.
  fold (mask_in_effect st c2). fold m.
  rewrite (mapM_all _ (fun k => (cross_entropy cfg env z k (predicted env c2 m k),
                                 accuracy cfg env z k (predicted env c2 m k)))).
  - destruct (Nat.eqb_spec (K cfg) 0); [lia|].
    rewrite !map_map. reflexivity.
  - intros k Hin. apply in_seq in Hin.
    destruct (predicted_shape cfg env z c st c2 k Hz Hc HK Hlen Hpos Hm ltac:(lia))
      as (Hp & P0 & P1 & P2).
    apply horizon_returns; try assumption. lia.
Qed.

(** With a window longer than the 200 rows of the positional-encoding table
    the call raises. *)
Lemma forward_raises_long_window cfg env z c st :
  c_layout cfg z c -> (200 < length cfg z)%Z ->
  snd (forward cfg env z c st) = None.
Proof.
  intros (_ & C1 & _) Hlen. unfold forward.
  destruct (reshape_ok cfg z); simpl; [|reflexivity].
  destruct (Nat.eq_dec (K cfg) 0) as [E|HK].
  - destruct (positional cfg env c); simpl; [|reflexivity].
    rewrite E. reflexivity.
  - rewrite positional_raises; [reflexivity|].
    unfold c_len, length in *. destruct (Nat.eqb_spec (K cfg) 0); lia.
Qed.

Lemma sample_layers_return cfg st c2 : layers_return cfg sample_env st c2.
Proof.
  intros k _. eexists. split; [reflexivity|repeat split].
Qed.

(** The claim as worded fails at K = T - 1: one horizon over utterances of
    two frames, every tensor in the configured layout, and the call raises. *)
Lemma short_window_counterexample :
  (K short_config < size1 short_z)%nat /\
  z_layout short_config short_z /\ c_layout short_config short_z short_z /\
  (forall c2, layers_return short_config sample_env init c2) /\
  snd (forward short_config sample_env short_z short_z init) = None.
Proof.
  split; [vm_compute; lia|].
  split; [unfold z_layout; simpl; lia|].
  split; [repeat split|].
  split; [intros c2; apply sample_layers_return|].
  apply forward_raises. right. vm_compute. reflexivity.
Qed.

(** C5, amended. A call raises whenever the window length T - K is below 2,
    in particular whenever K >= T, and whenever there is no horizon (K = 0).
    For latents and a context of the configured layout, with transformer
    layers that return tensors shaped as their context, the call raises if
    and only if K = 0 or T - K < 2 or T - K > 200 (the rows of the
    positional-encoding table); otherwise it fully succeeds: it returns a
    loss and exactly K accuracies and leaves the mask cached. *)
Theorem forward_raises_iff_short_window cfg env z c st :
  ((size1 z <= K cfg)%nat -> snd (forward cfg env z c st) = None) /\
  (K cfg = 0%nat \/ (length cfg z < 2)%Z ->
   snd (forward cfg env z c st) = None) /\
  (z_layout cfg z -> c_layout cfg z c ->
   (forall c2, positional cfg env c = Some c2 -> layers_return cfg env st c2) ->
   (snd (forward cfg env z c st) = None
    <-> K cfg = 0%nat \/ (length cfg z < 2)%Z \/ (200 < length cfg z)%Z) /\
   ((1 <= K cfg)%nat -> (2 <= length cfg z <= 200)%Z ->
    exists c2 loss accuracies,
      positional cfg env c = Some c2 /\
      forward cfg env z c st
      = (mkState (Some (mask_in_effect st c2)), Some (loss, accuracies)) /\
      List.length accuracies = K cfg)).
Proof.
  split; [|split].
  - intros H. apply forward_raises. right. unfold length. lia.
  - apply forward_raises.
  - intros Hz Hc Hlayers.
    assert (Hok : (1 <= K cfg)%nat -> (2 <= length cfg z <= 200)%Z ->
      exists c2 loss accuracies,
        positional cfg env c = Some c2 /\
        forward cfg env z c st
        = (mkState (Some (mask_in_effect st c2)), Some (loss, accuracies)) /\
        List.length accuracies = K cfg).
    { intros HK Hlen.
      destruct (positional_returns cfg env c) as (c2 & Hc2).
      - apply Hc.
      - destruct Hc as (_ & C1 & _). unfold c_len, length in *.
        destruct (Nat.eqb_spec (K cfg) 0); lia.
      - exists c2.
        rewrite (cpc_forward_returns cfg env z c st c2 Hz Hc HK ltac:(lia) Hc2
                   (Hlayers c2 Hc2)).
        do 2 eexists. split; [exact Hc2|]. split; [reflexivity|].
        rewrite length_map, length_seq. reflexivity. }
    split; [|exact Hok]. split.
    + intros Hnone.
      destruct (Nat.eq_dec (K cfg) 0) as [|HK]; [left; assumption|right].
      destruct (Z_lt_le_dec (length cfg z) 2) as [|Hlen]; [left; assumption|right].
      destruct (Z_lt_le_dec 200 (length cfg z)) as [|Hlen']; [assumption|exfalso].
      destruct Hok as (c2 & l & a & _ & Hf & _); [lia|lia|].
      rewrite Hf in Hnone. discriminate.
    + intros [H|[H|H]].
      * apply forward_raises. left. exact H.
      * apply forward_raises. right. exact H.
      * apply forward_raises_long_window; assumption.
Qed.

Lemma forward_raises_iff_short_window_witness :
  (exists c2 loss accuracies,
     positional sample_config sample_env sample_z = Some c2 /\
     forward sample_config sample_env sample_z sample_z init
     = (mkState (Some (mask_in_effect init c2)), Some (loss, accuracies)) /\
     List.length accuracies = K sample_config) /\
  snd (forward short_config sample_env short_z short_z init) = None /\
  snd (forward short_config sample_env long_z long_z init) = None.
Proof.
  split; [|split].
  - destruct (forward_raises_iff_short_window sample_config sample_env
                sample_z sample_z init) as (_ & _ & H).
    destruct H as [_ Hok].
    + apply sample_layout.
    + repeat split.
    + intros c2 _. apply sample_layers_return.
    + apply Hok; [vm_compute; lia|].
      split; [vm_compute; discriminate|vm_compute; discriminate].
  - destruct (forward_raises_iff_short_window short_config sample_env
                short_z short_z init) as (_ & Hraise & _).
    apply Hraise. right. vm_compute. reflexivity.
  - destruct (forward_raises_iff_short_window short_config sample_env
                long_z long_z init) as (_ & _ & H).
    destruct H as [Hiff _].
    + unfold z_layout. simpl. lia.
    + repeat split.
    + intros c2 _. apply sample_layers_return.
    + apply Hiff. right. right. vm_compute. reflexivity.
Defined.

(** *** The cached mask, as the calls use it *)

(** From buffers that hold a mask, a call that gets as far as its loop runs
    every horizon with that mask and leaves it in place. *)
Lemma forward_uses_cached_mask cfg env z c st m c2 :
  mask st = Some m -> reshape_ok cfg z = true ->
  positional cfg env c = Some c2 ->
  forward cfg env z c st
  = (mkState (Some m),
     match mapM (horizon cfg env z c2 m) (seq 1 (K cfg)) with
     | None => None
     | Some rs =>
         if (K cfg =? 0)%nat then None
         else Some (list_mean (map fst rs), map snd rs)
     end).
Proof.
  intros Hm Hr Hp. unfold forward. rewrite Hr, Hp. simpl. rewrite Hm.
  reflexivity.
Qed.

(** C4. When the first call on a fresh CPC loss gets as far as its mask
    (its reshape succeeds and the positional encoding returns), it generates
    the mask for the sequence length of its context, runs its own horizons
    with it and caches it.  Every later call, whatever its inputs and
    whether it returns or raises, leaves that mask in place; a later call
    that reaches its loop runs every horizon with the cached mask, not with
    a mask of its own context, so that when it returns, the loss and the
    accuracy of horizon k are those of the output of predictor k - 1 on its
    context and the cached mask.  The mask is a function of the sequence
    length alone, of that size, with entry (i, j) equal to 0 when j <= i and
    to -inf otherwise. *)
Theorem mask_computed_once cfg cl c2 cls :
  reshape_ok cfg (call_z cl) = true ->
  positional cfg (call_env cl) (call_c cl) = Some c2 ->
  let cached := generate_square_subsequent_mask (c_len cfg (call_c cl)) in
  let st := run cfg (step cfg init cl) cls in
  let loop env z c3 m :=
    match mapM (horizon cfg env z c3 m) (seq 1 (K cfg)) with
    | None => None
    | Some rs =>
        if (K cfg =? 0)%nat then None
        else Some (list_mean (map fst rs), map snd rs)
    end in
  forward cfg (call_env cl) (call_z cl) (call_c cl) init
  = (mkState (Some cached), loop (call_env cl) (call_z cl) c2 cached) /\
  mask (step cfg init cl) = Some cached /\
  mask st = Some cached /\
  (forall env z c,
     mask (fst (forward cfg env z c st)) = Some cached /\
     (forall c3,
        reshape_ok cfg z = true -> positional cfg env c = Some c3 ->
        forward cfg env z c st
        = (mkState (Some cached), loop env z c3 cached)) /\
     (forall c3,
        z_layout cfg z -> c_layout cfg z c -> (1 <= K cfg)%nat ->
        (2 <= length cfg z)%Z -> positional cfg env c = Some c3 ->
        (forall k, (1 <= k <= K cfg)%nat ->
           exists p, predictors env (k - 1) c3 cached = Some p /\
                     same_shape p c3) ->
        forward cfg env z c st
        = (mkState (Some cached),
           Some (list_mean
                   (map (fun k => cross_entropy cfg env z k
                                    (predicted env c3 cached k))
                        (seq 1 (K cfg))),
                 map (fun k => accuracy cfg env z k
                                 (predicted env c3 cached k))
                     (seq 1 (K cfg)))))) /\
  mask_size cached = c_len cfg (call_c cl) /\
  forall i j, mask_at cached i j = if (j <=? i)%nat then Fin 0 else NegInf.
Proof.
  intros Hr Hp cached st loop.
  pose proof (step_caches_mask cfg cl c2 Hr Hp) as H1.
  rewrite (positional_size0 _ _ _ _ Hp) in H1. fold cached in H1.
  pose proof (run_keeps_mask cfg cls _ _ H1) as H2. fold st in H2.
  split.
  { unfold forward. rewrite Hr, Hp. simpl.
    rewrite (positional_size0 _ _ _ _ Hp). reflexivity. }
  split; [exact H1|]. split; [exact H2|].
  split; [|split; [reflexivity|intros i j; apply mask_entry]].
  intros env z c. split; [|split].
  - apply (step_keeps_mask cfg st (mkCall env z c) cached H2).
  - intros c3 Hr3 Hp3.
    apply (forward_uses_cached_mask cfg env z c st cached c3 H2 Hr3 Hp3).
  - intros c3 Hz Hc HK Hlen Hp3 Hlayers.
    assert (E : mask_in_effect st c3 = cached)
      by (unfold mask_in_effect; rewrite H2; reflexivity).
    pose proof (cpc_forward_returns cfg env z c st c3 Hz Hc HK Hlen Hp3) as HF.
    cbv zeta in HF. rewrite E in HF. apply HF.
    unfold layers_return. rewrite E. exact Hlayers.
Qed.

Lemma sample_z6_layout :
  z_layout sample_config sample_z6 /\ c_layout sample_config sample_z6 sample_z6.
Proof. unfold z_layout, c_layout. simpl. lia. Qed.

Lemma mask_computed_once_witness :
  let cached := generate_square_subsequent_mask 8 in
  let st := run sample_config (step sample_config init sample_call)
                [mkCall sample_env short_z short_z; sample_call] in
  mask (step sample_config init sample_call) = Some cached /\
  mask st = Some cached /\
  (exists c3,
     positional sample_config sample_env sample_z6 = Some c3 /\
     size0 c3 = 4%nat /\
     forward sample_config sample_env sample_z6 sample_z6 st
     = (mkState (Some cached),
        Some (list_mean
                (map (fun k => cross_entropy sample_config sample_env sample_z6 k
                                 (predicted sample_env c3 cached k))
                     (seq 1 2)),
              map (fun k => accuracy sample_config sample_env sample_z6 k
                              (predicted sample_env c3 cached k))
                  (seq 1 2)))) /\
  mask_size cached = 8%nat /\
  forall i j, mask_at cached i j = if (j <=? i)%nat then Fin 0 else NegInf.
Proof.
  destruct (positional_returns sample_config sample_env sample_z)
    as (c2 & Hc2); [reflexivity|rewrite sample_c_len; lia|].
  destruct (positional_returns sample_config sample_env sample_z6)
    as (c3 & Hc3); [reflexivity|vm_compute; lia|].
  destruct (mask_computed_once sample_config sample_call c2
              [mkCall sample_env short_z short_z; sample_call]
              (reshape_ok_layout _ _ sample_layout) Hc2)
    as (_ & H1 & H2 & H3 & H4 & H5).
  split; [exact H1|]. split; [exact H2|].
  split; [|split; [exact H4|exact H5]].
  exists c3. split; [exact Hc3|].
  split; [apply (positional_size0 _ _ _ _ Hc3)|].
  destruct (H3 sample_env sample_z6 sample_z6) as (_ & _ & H6).
  apply (H6 c3).
  - apply sample_z6_layout.
  - apply sample_z6_layout.
  - vm_compute. lia.
  - vm_compute. discriminate.
  - exact Hc3.
  - intros k _. eexists. split; [reflexivity|repeat split].
Defined.

(** *** The loss and the accuracies *)

Lemma f2_score cfg env z k p b j t :
  size0 p = Z.to_nat (length cfg z) ->
  f2 cfg env z k p b j t = score cfg p (candidate cfg env z k b j t) b t.
Proof.
  intros H0. unfold f2, f, score, candidate, Wc, wt.
  rewrite H0, Nat.eqb_refl.
  replace (b / U cfg * U cfg + b mod U cfg)%nat with b
    by (rewrite Nat.mul_comm; apply Nat.div_mod_eq).
  reflexivity.
Qed.

(** Candidate 0 is the latent [k] steps after the position. *)
Lemma candidate_true cfg env z k b t d :
  z_layout cfg z -> (k <= K cfg)%nat -> (0 <= length cfg z)%Z ->
  (t < Z.to_nat (length cfg z))%nat -> (d < z_dim cfg)%nat ->
  candidate cfg env z k b 0 t d = get3 z b (k + t) d.
Proof.
  intros Hz Hk Hlen Ht Hd. unfold candidate, zs, z_shift.
  assert (Hk' : (k <= size1 z)%nat) by (unfold length in *; lia).
  rewrite (shift_start_in_range cfg z k Hz Hk').
  rewrite z4_layout; [|exact Hz|unfold length in *; lia|exact Hd].
  f_equal. rewrite Nat.mul_comm. symmetry. apply Nat.div_mod_eq.
Qed.

Lemma cross_entropy_eq cfg env z k p :
  cross_entropy cfg env z k p
  = sumR (S_ cfg * U cfg) (fun b => sumR (Z.to_nat (length cfg z)) (fun t =>
      nll_class0 (n_negatives cfg + 1) (fun j => f2 cfg env z k p b j t)))
    / INR (S_ cfg * U cfg * Z.to_nat (length cfg z)).
Proof.
  unfold cross_entropy, n_positions. f_equal.
  apply sumR_ext. intros b _. apply sumR_ext. intros t _.
  unfold log_softmax, labels, nll_class0, n_classes. lra.
Qed.

Lemma nll_class0_nonneg n g : (0 < n)%nat -> 0 <= nll_class0 n g.
Proof.
  intros Hn. unfold nll_class0.
  assert (Hle : exp (g O) <= sumR n (fun j => exp (g j))).
  { apply (sumR_term_le n (fun j => exp (g j)) O); [|exact Hn].
    intros j _. left. apply exp_pos. }
  pose proof (exp_pos (g O)) as Hpos.
  assert (ln (exp (g O)) <= ln (sumR n (fun j => exp (g j)))).
  { destruct Hle as [Hlt|E]; [left; apply ln_increasing; assumption|].
    rewrite <- E. lra. }
  rewrite ln_exp in *. lra.
Qed.

Lemma div_INR_nonneg a n : 0 <= a -> 0 <= a / INR n.
Proof.
  intros Ha. apply Rmult_le_pos; [exact Ha|].
  destruct n as [|n]; [simpl; rewrite Rinv_0; lra|].
  left. apply Rinv_0_lt_compat, lt_0_INR. lia.
Qed.

Lemma cross_entropy_nonneg cfg env z k p :
  0 <= cross_entropy cfg env z k p.
Proof.
  rewrite cross_entropy_eq. apply div_INR_nonneg.
  apply sumR_nonneg. intros b _. apply sumR_nonneg. intros t _.
  apply nll_class0_nonneg. lia.
Qed.

Lemma accuracy_range cfg env z k p : 0 <= accuracy cfg env z k p <= 1.
Proof.
  unfold accuracy, n_positions.
  set (hit := fun b t =>
    if (argmax (n_classes cfg) (fun j => f2 cfg env z k p b j t)
        =? labels b t)%nat then 1 else 0).
  assert (Hhit : forall b t, 0 <= hit b t <= 1)
    by (intros b t; unfold hit; destruct (_ =? _)%nat; lra).
  assert (H0 : 0 <= sumR (S_ cfg * U cfg) (fun b =>
                 sumR (Z.to_nat (length cfg z)) (fun t => hit b t))).
  { apply sumR_nonneg. intros b _. apply sumR_nonneg. intros t _. apply Hhit. }
  assert (H1 : sumR (S_ cfg * U cfg) (fun b =>
                 sumR (Z.to_nat (length cfg z)) (fun t => hit b t))
               <= INR (S_ cfg * U cfg * Z.to_nat (length cfg z))).
  { rewrite mult_INR, <- sumR_const. apply sumR_le. intros b _.
    rewrite <- (Rmult_1_r (INR _)), <- sumR_const. apply sumR_le.
    intros t _. apply Hhit. }
  fold hit. split; [apply div_INR_nonneg, H0|].
  destruct (S_ cfg * U cfg * Z.to_nat (length cfg z))%nat as [|np] eqn:E.
  - simpl. unfold Rdiv. rewrite Rinv_0. lra.
  - assert (Hp : 0 < INR (S np)) by (apply lt_0_INR; lia).
    apply Rmult_le_reg_r with (INR (S np)); [exact Hp|].
    unfold Rdiv. rewrite Rmult_assoc, Rinv_l by lra.
    unfold hit in H1. cbv beta in H1. lra.
Qed.

Lemma fold_sum_nonneg l : (forall a, In a l -> 0 <= a) -> 0 <= fold_right Rplus 0 l.
Proof.
  induction l as [|a l IH]; intros H; simpl; [lra|].
  assert (0 <= a) by (apply H; left; reflexivity).
  assert (0 <= fold_right Rplus 0 l) by (apply IH; intros; apply H; right; assumption).
  lra.
Qed.

Lemma nth_map_seq (g : nat -> R) n k :
  (1 <= k <= n)%nat -> nth (k - 1) (map g (seq 1 n)) 0 = g k.
Proof.
  intros Hk.
  rewrite (nth_indep _ 0 (g O)) by (rewrite length_map, length_seq; lia).
  rewrite map_nth, seq_nth by lia. f_equal. lia.
Qed.

(** C9. For every call that succeeds (latents and context of the configured
    layout, K >= 1 horizons, window length at least 2, the positional
    encoding returning and the transformer layers returning tensors shaped
    as the context) the returned loss is the mean
    of the K per-horizon losses; the loss of horizon k is the mean, over all
    utterances and window positions, of the cross-entropy of a
    classification over the n_negatives + 1 candidates of the position,
    scored by scaled dot product with the prediction, whose true class is
    class 0, candidate 0 being the true latent k steps ahead; the loss is
    >= 0; and the accuracies are a list of exactly K values, each in
    [0, 1]. *)
Theorem loss_is_mean_of_horizon_losses cfg env z c st c2 :
  z_layout cfg z -> c_layout cfg z c -> (1 <= K cfg)%nat ->
  (2 <= length cfg z)%Z -> positional cfg env c = Some c2 ->
  layers_return cfg env st c2 ->
  exists loss accuracies losses,
    snd (forward cfg env z c st) = Some (loss, accuracies) /\
    List.length losses = K cfg /\
    loss = fold_right Rplus 0 losses / INR (K cfg) /\
    0 <= loss /\
    List.length accuracies = K cfg /\
    (forall a, In a accuracies -> 0 <= a <= 1) /\
    forall k, (1 <= k <= K cfg)%nat ->
      let p := predicted env c2 (mask_in_effect st c2) k in
      nth (k - 1) losses 0
      = sumR (S_ cfg * U cfg) (fun b =>
          sumR (Z.to_nat (length cfg z)) (fun t =>
            nll_class0 (n_negatives cfg + 1)
              (fun j => score cfg p (candidate cfg env z k b j t) b t)))
        / INR (S_ cfg * U cfg * Z.to_nat (length cfg z)) /\
      forall b t d,
        (b < S_ cfg * U cfg)%nat -> (t < Z.to_nat (length cfg z))%nat ->
        (d < z_dim cfg)%nat ->
        candidate cfg env z k b 0 t d = get3 z b (k + t) d.
Proof.
  intros Hz Hc HK Hlen Hpos Hm.
  set (m := mask_in_effect st c2).
  set (ce := fun k => cross_entropy cfg env z k (predicted env c2 m k)).
  set (ac := fun k => accuracy cfg env z k (predicted env c2 m k)).
  exists (list_mean (map ce (seq 1 (K cfg)))), (map ac (seq 1 (K cfg))),
         (map ce (seq 1 (K cfg))).
  split; [rewrite (cpc_forward_returns cfg env z c st c2 Hz Hc HK Hlen Hpos Hm);
          reflexivity|].
  split; [rewrite length_map, length_seq; reflexivity|].
  split; [unfold list_mean; rewrite length_map, length_seq; reflexivity|].
  split.
  { unfold list_mean. apply div_INR_nonneg, fold_sum_nonneg.
    intros a Ha. apply in_map_iff in Ha. destruct Ha as (k & <- & _).
    apply cross_entropy_nonneg. }
  split; [rewrite length_map, length_seq; reflexivity|].
  split.
  { intros a Ha. apply in_map_iff in Ha. destruct Ha as (k & <- & _).
    apply accuracy_range. }
  intros k Hk p. split.
  - rewrite (nth_map_seq ce (K cfg) k Hk). unfold ce. fold p.
    rewrite cross_entropy_eq. f_equal.
    apply sumR_ext. intros b _. apply sumR_ext. intros t _.
    unfold nll_class0.
    destruct (predicted_shape cfg env z c st c2 k Hz Hc HK Hlen Hpos Hm Hk)
      as (_ & P0 & _).
    fold m p in P0.
    rewrite (f2_score cfg env z k p b 0 t P0).
    f_equal. f_equal. apply sumR_ext. intros j _.
    rewrite (f2_score cfg env z k p b j t P0). reflexivity.
  - intros b t d _ Ht Hd. apply candidate_true; try assumption; lia.
Qed.

Lemma loss_is_mean_of_horizon_losses_witness :
  exists loss accuracies losses,
    snd (forward sample_config sample_env sample_z sample_z init)
    = Some (loss, accuracies) /\
    List.length losses = 2%nat /\
    loss = fold_right Rplus 0 losses / INR 2 /\
    0 <= loss /\
    List.length accuracies = 2%nat /\
    (forall a, In a accuracies -> 0 <= a <= 1).
Proof.
  destruct (positional_returns sample_config sample_env sample_z)
    as (c2 & Hc2); [reflexivity|rewrite sample_c_len; lia|].
  destruct (loss_is_mean_of_horizon_losses sample_config sample_env
              sample_z sample_z init c2)
    as (loss & accs & losses & H1 & H2 & H3 & H4 & H5 & H6 & _).
  - apply sample_layout.
  - repeat split.
  - vm_compute. lia.
  - vm_compute. discriminate.
  - exact Hc2.
  - apply sample_layers_return.
  - exists loss, accs, losses. repeat split; try assumption; apply H6; assumption.
Defined.
End CPCProps.

(** * Further properties *)

(** ** More on finite sums *)

Lemma sumR_app a c f :
  sumR (a + c) f = sumR a f + sumR c (fun i => f (a + i)%nat).
Proof.
  induction c as [|c IH].
  - rewrite Nat.add_0_r. simpl. lra.
  - rewrite Nat.add_succ_r. simpl. rewrite IH. lra.
Qed.

(** A sum over a row-major index is the double sum over rows and columns. *)
Lemma sumR_grid rows cols (g : nat -> nat -> R) :
  sumR (rows * cols) (fun i => g (i / cols)%nat (i mod cols)%nat)
  = sumR rows (fun b => sumR cols (fun l => g b l)).
Proof.
  induction rows as [|b IH]; [reflexivity|].
  replace (S b * cols)%nat with (b * cols + cols)%nat by lia.
  rewrite sumR_app, IH. simpl. f_equal.
  apply sumR_ext. intros l Hl.
  rewrite div_mul_add, mod_mul_add by exact Hl. reflexivity.
Qed.

(** ** First-maximum selection *)

Lemma argmax_lt M g : (0 < M)%nat -> (argmax M g < M)%nat.
Proof.
  induction M as [|k IH]; intros HM; [lia|].
  destruct k as [|k']; [simpl; lia|].
  change (argmax (S (S k')) g)
    with (let j := argmax (S k') g in
          if Rlt_dec (g j) (g (S k')) then S k' else j).
  cbv zeta. destruct (Rlt_dec _ _); [lia|].
  assert (argmax (S k') g < S k')%nat by (apply IH; lia). lia.
Qed.

(** [argmax] returns a maximum, and every earlier entry is strictly smaller. *)
Lemma argmax_spec M g :
  (0 < M)%nat ->
  (forall m, (m < M)%nat -> g m <= g (argmax M g)) /\
  (forall m, (m < argmax M g)%nat -> g m < g (argmax M g)).
Proof.
  induction M as [|k IH]; intros HM; [lia|].
  destruct k as [|k'].
  - simpl. split; intros m Hm; [|lia].
    assert (m = O) by lia. subst. lra.
  - change (argmax (S (S k')) g)
      with (let j := argmax (S k') g in
            if Rlt_dec (g j) (g (S k')) then S k' else j).
    cbv zeta.
    destruct IH as [IHmax IHfirst]; [lia|].
    assert (Hlt : (argmax (S k') g < S k')%nat) by (apply argmax_lt; lia).
    destruct (Rlt_dec (g (argmax (S k') g)) (g (S k'))) as [Hless|Hge].
    + split; intros m Hm.
      * destruct (Nat.eq_dec m (S k')) as [->|Hne]; [lra|].
        assert (g m <= g (argmax (S k') g)) by (apply IHmax; lia). lra.
      * assert (g m <= g (argmax (S k') g)) by (apply IHmax; lia). lra.
    + split; intros m Hm.
      * destruct (Nat.eq_dec m (S k')) as [->|Hne]; [lra|].
        apply IHmax. lia.
      * apply IHfirst. exact Hm.
Qed.

(** The first maximum is class 0 exactly when no class scores above it. *)
Lemma argmax_zero_iff M g :
  (0 < M)%nat ->
  (argmax M g = O <-> forall m, (m < M)%nat -> g m <= g O).
Proof.
  intros HM. destruct (argmax_spec M g HM) as [Hmax Hfirst]. split.
  - intros E m Hm. rewrite <- E. apply Hmax, Hm.
  - intros Hall. destruct (argmax M g) as [|j] eqn:E; [reflexivity|exfalso].
    assert (g O < g (S j)) by (apply Hfirst; lia).
    assert (g (S j) <= g O).
    { apply Hall. rewrite <- E. apply argmax_lt, HM. }
    lra.
Qed.

(** ** The vector quantizer: statistics, loss and edge cases *)

Module VQExtra.
Import VQ VQProps.

(** X1. After a training-mode call (decay in [0,1), smoothing constant
    positive, buffers reachable, input accepted) the usage counts of every
    group add up to decay times their total before the call plus
    (1 - decay) times the number B * L of vectors quantized: the group
    total is a moving average of the batch size. *)
Theorem usage_total_moving_average cfg st x :
  valid_config cfg -> reachable cfg st -> valid_input st x ->
  exists st' out,
    forward cfg st x true = Some (st', out) /\
    forall n, (n < N st)%nat ->
      sumR (M st) (get2 (ema_count st') n)
      = decay cfg * sumR (M st) (get2 (ema_count st) n)
        + (1 - decay cfg) * INR (B x * L x).
Proof.
  intros Hv Hr Hx. pose proof Hx as (_ & _ & HM & _).
  exists (update cfg st x),
         (output st x, loss cfg st x, sumR (N st) (perplexity st x)).
  split; [apply (vq_forward_returns cfg st x true Hx)|].
  intros n Hn. simpl.
  rewrite smoothing_total.
  - apply n_total_eq, HM.
  - apply smoothing_denominator_pos; try assumption.
    apply reachable_counts_nonneg with cfg; assumption.
Qed.

Lemma usage_total_moving_average_witness :
  exists st' out,
    forward default_config codebook_2_4_3 frame_1_6_1 true = Some (st', out) /\
    forall n, (n < N codebook_2_4_3)%nat ->
      sumR (M codebook_2_4_3) (get2 (ema_count st') n)
      = decay default_config
        * sumR (M codebook_2_4_3) (get2 (ema_count codebook_2_4_3) n)
        + (1 - decay default_config) * INR (B frame_1_6_1 * L frame_1_6_1).
Proof.
  apply usage_total_moving_average.
  - unfold valid_config, default_config. simpl. lra.
  - apply reach_init.
  - shapes.
Defined.

(** Each input vector is added to the weight of exactly one code. *)
Lemma dw_total st x n d :
  (0 < M st)%nat ->
  sumR (M st) (fun m => dw st x n m d)
  = sumR (B x) (fun b => sumR (L x) (fun l => get3 x b (n * D st + d) l)).
Proof.
  intros HM. unfold dw. rewrite sumR_swap.
  rewrite (sumR_ext _ _ (fun i => x_flat st x n i d)).
  - unfold x_flat, x_perm.
    apply (sumR_grid (B x) (L x) (fun b l => get3 x b (n * D st + d) l)).
  - intros i _.
    rewrite (sumR_ext _ _ (fun m => x_flat st x n i d * encodings st x n i m))
      by (intros; lra).
    rewrite sumR_scal. unfold encodings.
    rewrite sumR_one_hot by (apply indices_lt, HM). lra.
Qed.

(** X2. After a training-mode call on an accepted input, the accumulated
    weights of every group and feature add up, over the codes, to decay
    times their total before the call plus (1 - decay) times the sum of
    that feature over all input vectors of the group: no input vector is
    dropped or counted twice. *)
Theorem weight_total_moving_average cfg st x :
  valid_input st x ->
  exists st' out,
    forward cfg st x true = Some (st', out) /\
    forall n d, (n < N st)%nat -> (d < D st)%nat ->
      sumR (M st) (fun m => get3 (ema_weight st') n m d)
      = decay cfg * sumR (M st) (fun m => get3 (ema_weight st) n m d)
        + (1 - decay cfg)
          * sumR (B x) (fun b => sumR (L x) (fun l =>
              get3 x b (n * D st + d) l)).
Proof.
  intros Hx. pose proof Hx as (_ & _ & HM & _).
  exists (update cfg st x),
         (output st x, loss cfg st x, sumR (N st) (perplexity st x)).
  split; [apply (vq_forward_returns cfg st x true Hx)|].
  intros n d _ _. simpl. unfold ema_weight_new.
  rewrite sumR_plus, !sumR_scal, dw_total by exact HM. reflexivity.
Qed.

Lemma weight_total_moving_average_witness :
  exists st' out,
    forward default_config codebook_2_4_3 frame_1_6_1 true = Some (st', out) /\
    forall n d, (n < N codebook_2_4_3)%nat -> (d < D codebook_2_4_3)%nat ->
      sumR (M codebook_2_4_3) (fun m => get3 (ema_weight st') n m d)
      = decay default_config
        * sumR (M codebook_2_4_3)
               (fun m => get3 (ema_weight codebook_2_4_3) n m d)
        + (1 - decay default_config)
          * sumR (B frame_1_6_1) (fun b => sumR (L frame_1_6_1) (fun l =>
              get3 frame_1_6_1 b (n * D codebook_2_4_3 + d) l)).
Proof.
  apply weight_total_moving_average. shapes.
Defined.

(** X3. A code that no vector of the batch is assigned to receives nothing
    from a training-mode call: its accumulated weight is multiplied by decay,
    and so is its usage count before smoothing. *)
Theorem unselected_code_decays cfg st x n m :
  valid_input st x ->
  (forall i, (i < B x * L x)%nat -> indices st x n i <> m) ->
  exists st' out,
    forward cfg st x true = Some (st', out) /\
    (forall d, get3 (ema_weight st') n m d
               = decay cfg * get3 (ema_weight st) n m d) /\
    ema_count_decayed cfg st x n m = decay cfg * get2 (ema_count st) n m.
Proof.
  intros Hx Hnot.
  exists (update cfg st x),
         (output st x, loss cfg st x, sumR (N st) (perplexity st x)).
  split; [apply (vq_forward_returns cfg st x true Hx)|].
  assert (Henc : forall i, (i < B x * L x)%nat -> encodings st x n i m = 0).
  { intros i Hi. unfold encodings.
    destruct (Nat.eqb_spec (indices st x n i) m) as [E|_]; [|reflexivity].
    exfalso. apply (Hnot i Hi E). }
  split.
  - intros d. simpl. unfold ema_weight_new, dw.
    rewrite sumR_all_zero; [lra|].
    intros i Hi. rewrite (Henc i Hi). lra.
  - unfold ema_count_decayed. rewrite sumR_all_zero by exact Henc. lra.
Qed.

(** In the sample call the vector of group 0 is nearer to code 1 than to
    code 3. *)
Lemma frame_1_6_1_never_code_3 i :
  (i < B frame_1_6_1 * L frame_1_6_1)%nat ->
  indices codebook_2_4_3 frame_1_6_1 0 i <> 3%nat.
Proof.
  intros Hi E. assert (i = O) by (simpl in Hi; lia). subst i.
  destruct (argmin_spec 4 (distances codebook_2_4_3 frame_1_6_1 0 0))
    as [Hmin _]; [lia|].
  specialize (Hmin 1%nat ltac:(lia)).
  unfold indices in E. change (M codebook_2_4_3) with 4%nat in E.
  rewrite E in Hmin.
  assert (Hlt : distances codebook_2_4_3 frame_1_6_1 0 0 1
                < distances codebook_2_4_3 frame_1_6_1 0 0 3).
  { unfold distances. apply sqrt_lt_1.
    - apply sumR_nonneg. intros. apply sq_nonneg.
    - apply sumR_nonneg. intros. apply sq_nonneg.
    - unfold x_flat, x_perm, sq. simpl. lra. }
  lra.
Qed.

Lemma unselected_code_decays_witness :
  exists st' out,
    forward default_config codebook_2_4_3 frame_1_6_1 true = Some (st', out) /\
    (forall d, get3 (ema_weight st') 0 3 d
               = decay default_config
                 * get3 (ema_weight codebook_2_4_3) 0 3 d) /\
    ema_count_decayed default_config codebook_2_4_3 frame_1_6_1 0 3
    = decay default_config * get2 (ema_count codebook_2_4_3) 0 3.
Proof.
  apply unselected_code_decays.
  - shapes.
  - apply frame_1_6_1_never_code_3.
Defined.

(** The squared error of one input vector against the code chosen for it is
    at most its squared error against any other code of the group. *)
Lemma vector_error_minimal st x n b l m :
  (0 < M st)%nat -> (l < L x)%nat -> (m < M st)%nat ->
  sumR (D st) (fun d => sq (x_perm st x n b l d - quantized4 st x n b l d))
  <= sumR (D st) (fun d => sq (x_perm st x n b l d - get3 (embedding st) n m d)).
Proof.
  intros HM Hl Hm.
  destruct (indices_first_nearest st x n b l HM Hl) as (_ & Hmin & _).
  specialize (Hmin m Hm). unfold euclid in Hmin.
  apply sqrt_le_0 in Hmin.
  - exact Hmin.
  - apply sumR_nonneg. intros. apply sq_nonneg.
  - apply sumR_nonneg. intros. apply sq_nonneg.
Qed.

Lemma inv_INR_nonneg k : 0 <= / INR k.
Proof.
  destruct k as [|k]; [simpl; rewrite Rinv_0; lra|].
  left. apply Rinv_0_lt_compat, lt_0_INR. lia.
Qed.

(** X4. The commitment loss a call reports is the least any assignment of
    codes could give: for a non-negative commitment cost and any other
    choice [a] of a code of its group for every input vector, the loss
    computed with [a] is at least the loss returned. *)
Theorem nearest_code_minimizes_loss cfg st x training a :
  valid_input st x -> 0 <= commitment_cost cfg ->
  (forall n i, (a n i < M st)%nat) ->
  exists st' q l p,
    forward cfg st x training = Some (st', (q, l, p)) /\
    l <= assignment_loss cfg st x a.
Proof.
  intros Hx Hcc Ha. pose proof Hx as (_ & _ & HM & _).
  exists (if training then update cfg st x else st),
         (output st x), (loss cfg st x), (sumR (N st) (perplexity st x)).
  split; [apply vq_forward_returns, Hx|].
  unfold loss, e_latent_loss, assignment_loss.
  apply Rmult_le_compat_l; [exact Hcc|].
  apply Rmult_le_compat_r; [apply inv_INR_nonneg|].
  apply sumR_le. intros n _. apply sumR_le. intros b _.
  apply sumR_le. intros l Hl.
  apply vector_error_minimal; [exact HM|exact Hl|apply Ha].
Qed.

Lemma nearest_code_minimizes_loss_witness :
  exists st' q l p,
    forward default_config codebook_2_4_3 frame_1_6_1 false
    = Some (st', (q, l, p)) /\
    l <= assignment_loss default_config codebook_2_4_3 frame_1_6_1
           (fun _ _ => 3%nat).
Proof.
  apply nearest_code_minimizes_loss.
  - shapes.
  - simpl. lra.
  - intros n i. shapes.
Defined.

(** X5. For a positive commitment cost and an accepted input holding at
    least one vector, the commitment loss returned is non-negative, and it
    is zero exactly when every input vector is a code of its group. *)
Theorem loss_zero_iff_all_codes cfg st x training :
  valid_input st x -> 0 < commitment_cost cfg ->
  (0 < B x)%nat -> (0 < L x)%nat ->
  exists st' q l p,
    forward cfg st x training = Some (st', (q, l, p)) /\
    0 <= l /\
    (l = 0 <->
     forall n b t, (n < N st)%nat -> (b < B x)%nat -> (t < L x)%nat ->
       exists m, (m < M st)%nat /\
                 same_vector (D st) (input_vector st x n b t) (code st n m)).
Proof.
  intros Hx Hcc HB HL. pose proof Hx as (_ & HN & HM & HD).
  exists (if training then update cfg st x else st),
         (output st x), (loss cfg st x), (sumR (N st) (perplexity st x)).
  split; [apply vq_forward_returns, Hx|].
  set (err := fun n b t d => sq (x_perm st x n b t d - quantized4 st x n b t d)).
  set (total := sumR (N st) (fun n => sumR (B x) (fun b =>
                  sumR (L x) (fun t => sumR (D st) (fun d => err n b t d))))).
  assert (Hloss : loss cfg st x
                  = commitment_cost cfg * (total / INR (N st * B x * L x * D st)))
    by reflexivity.
  assert (Hpos : 0 < INR (N st * B x * L x * D st)) by (apply lt_0_INR; nia).
  assert (Hinv : 0 < / INR (N st * B x * L x * D st))
    by (apply Rinv_0_lt_compat, Hpos).
  assert (H3 : forall n b t, 0 <= sumR (D st) (fun d => err n b t d))
    by (intros; apply sumR_nonneg; intros; apply sq_nonneg).
  assert (H2 : forall n b,
            0 <= sumR (L x) (fun t => sumR (D st) (fun d => err n b t d)))
    by (intros; apply sumR_nonneg; intros; apply H3).
  assert (H1 : forall n,
            0 <= sumR (B x) (fun b => sumR (L x) (fun t =>
                   sumR (D st) (fun d => err n b t d))))
    by (intros; apply sumR_nonneg; intros; apply H2).
  assert (Htotal : 0 <= total) by (apply sumR_nonneg; intros; apply H1).
  split; [|split].
  - rewrite Hloss. apply Rmult_le_pos; [lra|].
    apply Rmult_le_pos; [exact Htotal|lra].
  - intros Hz n b t Hn Hb Ht.
    exists (indices st x n (b * L x + t)). split; [apply indices_lt, HM|].
    intros d Hd.
    assert (Ht0 : total = 0).
    { rewrite Hloss in Hz. unfold Rdiv in Hz.
      apply Rmult_integral in Hz. destruct Hz as [Hz|Hz]; [lra|].
      apply Rmult_integral in Hz. destruct Hz as [Hz|Hz]; [exact Hz|lra]. }
    pose proof (sumR_zero_terms _ _ (fun n _ => H1 n) Ht0 n Hn) as Z1.
    pose proof (sumR_zero_terms _ _ (fun b _ => H2 n b) Z1 b Hb) as Z2.
    pose proof (sumR_zero_terms _ _ (fun t _ => H3 n b t) Z2 t Ht) as Z3.
    pose proof (sumR_zero_terms _ _ (fun d _ => sq_nonneg _) Z3 d Hd) as Z4.
    apply sq_zero in Z4. unfold x_perm in Z4. rewrite quantized4_at in Z4.
    unfold input_vector. lra.
  - intros Hall. apply loss_zero. intros n b t d Hn Hb Ht Hd.
    destruct (Hall n b t Hn Hb Ht) as (m & Hm & Hv).
    rewrite quantized4_at.
    apply (code_returned st x n b t m HM Ht Hm Hv d Hd).
Qed.

Lemma loss_zero_iff_all_codes_witness :
  exists st' q l p,
    forward default_config codebook_2_4_3 frame_1_6_1 false
    = Some (st', (q, l, p)) /\
    0 <= l /\
    (l = 0 <->
     forall n b t, (n < N codebook_2_4_3)%nat -> (b < B frame_1_6_1)%nat ->
       (t < L frame_1_6_1)%nat ->
       exists m, (m < M codebook_2_4_3)%nat /\
                 same_vector (D codebook_2_4_3)
                   (input_vector codebook_2_4_3 frame_1_6_1 n b t)
                   (code codebook_2_4_3 n m)).
Proof.
  apply loss_zero_iff_all_codes.
  - shapes.
  - simpl. lra.
  - shapes.
  - shapes.
Defined.

(** X6. An input holding no vector (B = 0 or L = 0) with the right number of
    channels is accepted.  In training mode the accumulated weights are
    multiplied by decay and every group whose usage counts were all zero,
    as they are after [__init__], keeps them all exactly zero: smoothing
    adds nothing to a group without mass. *)
Theorem empty_batch_training_call cfg st x :
  valid_input st x -> (B x * L x = 0)%nat ->
  exists st' out,
    forward cfg st x true = Some (st', out) /\
    (forall n m d, get3 (ema_weight st') n m d
                   = decay cfg * get3 (ema_weight st) n m d) /\
    forall n,
      (forall m, (m < M st)%nat -> get2 (ema_count st) n m = 0) ->
      forall m, get2 (ema_count st') n m = 0.
Proof.
  intros Hx Hempty.
  exists (update cfg st x),
         (output st x, loss cfg st x, sumR (N st) (perplexity st x)).
  split; [apply (vq_forward_returns cfg st x true Hx)|].
  split.
  - intros n m d. simpl. unfold ema_weight_new, dw. rewrite Hempty. simpl. lra.
  - intros n Hzero m. simpl. unfold ema_count_smoothed.
    assert (Ht : n_total cfg st x n = 0).
    { unfold n_total. apply sumR_all_zero. intros m' Hm'.
      unfold ema_count_decayed. rewrite Hempty, (Hzero m' Hm'). simpl. lra. }
    rewrite Ht. lra.
Qed.

Lemma empty_batch_training_call_witness :
  exists st' out,
    forward default_config codebook_2_4_3 frame_0_6_1 true = Some (st', out) /\
    (forall n m d, get3 (ema_weight st') n m d
                   = decay default_config
                     * get3 (ema_weight codebook_2_4_3) n m d) /\
    forall n,
      (forall m, (m < M codebook_2_4_3)%nat ->
                 get2 (ema_count codebook_2_4_3) n m = 0) ->
      forall m, get2 (ema_count st') n m = 0.
Proof.
  apply empty_batch_training_call.
  - cbv [valid_input C N M D codebook_2_4_3 frame_0_6_1 init embedding
         size0 size1 size2]. lia.
  - reflexivity.
Defined.

(** X20. When the codes of a group that are in use are used equally often,
    each by a fraction a of the vectors (a = 1 / k for k codes in use), the
    perplexity of the group is 1 / (a + 1e-10), that is k / (1 + k * 1e-10):
    up to the smoothing constant, the number of codes in use. *)
Theorem perplexity_equal_use cfg st x training n a :
  valid_input st x -> (0 < B x)%nat -> (0 < L x)%nat -> 0 < a ->
  (forall m, (m < M st)%nat ->
     avg_probs st x n m = 0 \/ avg_probs st x n m = a) ->
  exists st' q l p,
    forward cfg st x training = Some (st', (q, l, p)) /\
    p = sumR (N st) (perplexity st x) /\
    perplexity st x n = / (a + 1e-10).
Proof.
  intros Hx HB HL Ha Huse. pose proof Hx as (_ & _ & HM & _).
  exists (if training then update cfg st x else st),
         (output st x), (loss cfg st x), (sumR (N st) (perplexity st x)).
  split; [apply vq_forward_returns, Hx|]. split; [reflexivity|].
  unfold perplexity.
  rewrite (sumR_ext _ _ (fun m => ln (a + 1e-10) * avg_probs st x n m)).
  - rewrite sumR_scal, avg_probs_total by (try assumption; nia).
    rewrite Rmult_1_r. apply exp_neg_ln. lra.
  - intros m Hm. destruct (Huse m Hm) as [E|E]; rewrite E; lra.
Qed.

Lemma perplexity_equal_use_witness :
  exists st' q l p,
    forward default_config codebook_2_4_3 frame_1_6_1 false
    = Some (st', (q, l, p)) /\
    p = sumR (N codebook_2_4_3) (perplexity codebook_2_4_3 frame_1_6_1) /\
    perplexity codebook_2_4_3 frame_1_6_1 0 = / (1 + 1e-10).
Proof.
  apply perplexity_equal_use; try shapes; [lra|].
  intros m Hm. unfold avg_probs.
  change (B frame_1_6_1 * L frame_1_6_1)%nat with 1%nat. simpl.
  unfold encodings. destruct (_ =? _)%nat; [right|left]; lra.
Defined.
End VQExtra.

(** ** The contrastive loss: failures, ties and the sampler *)

Module CPCExtra.
Import CPC CPCProps.

(** X7. What a call that raises leaves behind.  A call that raises in its
    reshape or in the positional encoding leaves the module as it was; a
    call that gets past them and raises in its loop (no horizon, or a window
    shorter than 2) has already stored its mask: on a fresh module the mask
    of the sequence length of its context stays cached. *)
Theorem failed_call_effect cfg env z c st :
  (reshape_ok cfg z = false \/ positional cfg env c = None ->
   forward cfg env z c st = (st, None)) /\
  (forall c2,
     reshape_ok cfg z = true -> positional cfg env c = Some c2 ->
     K cfg = 0%nat \/ (length cfg z < 2)%Z ->
     forward cfg env z c st = (mkState (Some (mask_in_effect st c2)), None) /\
     (mask st = None ->
      mask (fst (forward cfg env z c st))
      = Some (generate_square_subsequent_mask (c_len cfg c)))).
Proof.
  split.
  - intros [Hr|Hp]; unfold forward.
    + rewrite Hr. reflexivity.
    + destruct (reshape_ok cfg z); [simpl; rewrite Hp|]; reflexivity.
  - intros c2 Hr Hp Hshort.
    pose proof (forward_raises cfg env z c st Hshort) as Hnone.
    assert (Hfst : fst (forward cfg env z c st)
                   = mkState (Some (mask_in_effect st c2))).
    { unfold forward. rewrite Hr, Hp. reflexivity. }
    split.
    + rewrite (surjective_pairing (forward cfg env z c st)), Hfst, Hnone.
      reflexivity.
    + intros Hfresh. rewrite Hfst. unfold mask_in_effect. rewrite Hfresh.
      rewrite (positional_size0 _ _ _ _ Hp). reflexivity.
Qed.

Lemma failed_call_effect_witness :
  exists c2,
    forward short_config sample_env short_z short_z init
    = (mkState (Some (mask_in_effect init c2)), None) /\
    mask (fst (forward short_config sample_env short_z short_z init))
    = Some (generate_square_subsequent_mask 1).
Proof.
  destruct (positional_returns short_config sample_env short_z)
    as (c2 & Hc2); [reflexivity|vm_compute; lia|].
  exists c2.
  destruct (failed_call_effect short_config sample_env short_z short_z init)
    as [_ H].
  destruct (H c2) as [H1 H2].
  - apply reshape_ok_layout. unfold z_layout. simpl. lia.
  - exact Hc2.
  - right. vm_compute. reflexivity.
  - split; [exact H1|]. apply H2. reflexivity.
Defined.

(** *** Sampling reaches every other time index *)

Lemma randint_val_hits low high v :
  (low <= v < high)%Z ->
  randint_val low high (Z.to_nat (v - low)) = v.
Proof.
  intros Hv. unfold randint_val.
  rewrite Z2Nat.id by lia. rewrite Z.mod_small by lia. lia.
Qed.

Lemma offset_mod_injective (len r1 r2 t : Z) :
  (1 <= r1 < len)%Z -> (1 <= r2 < len)%Z ->
  ((r1 + t) mod len = (r2 + t) mod len)%Z -> r1 = r2.
Proof.
  intros H1 H2 E.
  pose proof (Z.div_mod (r1 + t) len ltac:(lia)) as D1.
  pose proof (Z.div_mod (r2 + t) len ltac:(lia)) as D2.
  rewrite E in D1.
  assert (Hq : (r1 - r2 = len * ((r1 + t) / len - (r2 + t) / len))%Z) by lia.
  assert (((r1 + t) / len - (r2 + t) / len <= -1
           \/ (r1 + t) / len - (r2 + t) / len = 0
           \/ 1 <= (r1 + t) / len - (r2 + t) / len)%Z) as [H|[H|H]] by lia;
    nia.
Qed.

(** X8. Over a window of length at least 2 the sampled time index of a
    position ranges over exactly the other indices of the window: every
    index of the window other than the position's own is the sampled index
    for some outcome of the generator, and two different offsets never give
    the same sampled index. *)
Theorem sampled_time_covers_window cfg z k s u n t :
  (2 <= length cfg z)%Z -> (t < Z.to_nat (length cfg z))%nat ->
  (forall t', (t' < Z.to_nat (length cfg z))%nat -> t' <> t ->
     exists raw, forall env,
       raw_seq env k s u n t = raw ->
       seq_index cfg env z k s u n t = Z.of_nat t') /\
  (forall env1 env2,
     seq_index cfg env1 z k s u n t = seq_index cfg env2 z k s u n t ->
     seq_draw cfg env1 z k s u n t = seq_draw cfg env2 z k s u n t).
Proof.
  intros Hlen Ht. split.
  - intros t' Ht' Hne.
    set (len := length cfg z) in *.
    set (r := ((Z.of_nat t' - Z.of_nat t) mod len)%Z).
    assert (Hr : (1 <= r < len)%Z).
    { pose proof (Z.mod_pos_bound (Z.of_nat t' - Z.of_nat t) len ltac:(lia))
        as Hbound.
      assert (r <> 0)%Z; [|unfold r in *; lia].
      intros E. unfold r in E.
      pose proof (Z.div_mod (Z.of_nat t' - Z.of_nat t) len ltac:(lia)) as Dm.
      rewrite E in Dm.
      assert (((Z.of_nat t' - Z.of_nat t) / len <= -1
               \/ (Z.of_nat t' - Z.of_nat t) / len = 0
               \/ 1 <= (Z.of_nat t' - Z.of_nat t) / len)%Z) as [Hq|[Hq|Hq]]
        by lia; nia. }
    exists (Z.to_nat (r - 1)). intros env Hraw.
    unfold seq_index, seq_draw. rewrite Hraw. fold len.
    rewrite (randint_val_hits 1 len r Hr).
    unfold r. rewrite Zplus_mod_idemp_l.
    replace (Z.of_nat t' - Z.of_nat t + Z.of_nat t)%Z with (Z.of_nat t') by lia.
    apply Z.mod_small. lia.
  - intros env1 env2 E. unfold seq_index in E.
    apply (offset_mod_injective (length cfg z) _ _ (Z.of_nat t));
      try exact E; apply randint_val_range; lia.
Qed.

Lemma sampled_time_covers_window_witness :
  (forall t', (t' < Z.to_nat (length sample_config sample_z))%nat ->
     t' <> 3%nat ->
     exists raw, forall env,
       raw_seq env 1 0 1 2 3 = raw ->
       seq_index sample_config env sample_z 1 0 1 2 3 = Z.of_nat t') /\
  (forall env1 env2,
     seq_index sample_config env1 sample_z 1 0 1 2 3
     = seq_index sample_config env2 sample_z 1 0 1 2 3 ->
     seq_draw sample_config env1 sample_z 1 0 1 2 3
     = seq_draw sample_config env2 sample_z 1 0 1 2 3).
Proof.
  apply sampled_time_covers_window.
  - vm_compute. discriminate.
  - vm_compute. lia.
Defined.

(** *** Accuracy and ties *)

(** A sum of terms bounded by [c] reaches [n * c] only when every term is
    [c]. *)
Lemma sumR_full n h c :
  (forall i, (i < n)%nat -> h i <= c) ->
  (sumR n h = INR n * c <-> forall i, (i < n)%nat -> h i = c).
Proof.
  intros Hle. split.
  - intros Hsum i Hi.
    assert (Hz : sumR n (fun i => c - h i) = 0).
    { rewrite sumR_minus, sumR_const. lra. }
    pose proof (sumR_zero_terms n (fun i => c - h i)
                  (fun j Hj => ltac:(specialize (Hle j Hj); lra)) Hz i Hi).
    simpl in *. lra.
  - intros Hall. rewrite (sumR_ext n h (fun _ => c)) by exact Hall.
    apply sumR_const.
Qed.

Section HorizonAccuracy.

Variable cfg : Config.
Variable env : Env.
Variable z : Tensor3.
Variable k : nat.
Variable p : Tensor3.
Hypothesis rows_pos : (0 < S_ cfg * U cfg)%nat.
Hypothesis window_pos : (0 < Z.to_nat (length cfg z))%nat.

Let hit (b t : nat) : R :=
  if (argmax (n_classes cfg) (fun j => f2 cfg env z k p b j t)
      =? labels b t)%nat then 1 else 0.

Lemma hit_range b t : 0 <= hit b t <= 1.
Proof. unfold hit. destruct (_ =? _)%nat; lra. Qed.

Lemma hit_one_iff b t :
  hit b t = 1 <->
  forall j, (j < n_classes cfg)%nat ->
    f2 cfg env z k p b j t <= f2 cfg env z k p b 0 t.
Proof.
  rewrite <- (argmax_zero_iff (n_classes cfg)
                (fun j => f2 cfg env z k p b j t))
    by (unfold n_classes; lia).
  unfold hit, labels.
  destruct (Nat.eqb_spec (argmax (n_classes cfg)
                            (fun j => f2 cfg env z k p b j t)) 0);
    split; intros; try lra; try assumption; try lia.
Qed.

Lemma n_positions_pos : 0 < INR (n_positions cfg z).
Proof. apply lt_0_INR. unfold n_positions. nia. Qed.

Lemma accuracy_as_hits :
  accuracy cfg env z k p
  = sumR (S_ cfg * U cfg) (fun b =>
      sumR (Z.to_nat (length cfg z)) (fun t => hit b t))
    / INR (n_positions cfg z).
Proof. reflexivity. Qed.

Lemma accuracy_one_all_hits :
  accuracy cfg env z k p = 1 <->
  forall b t, (b < S_ cfg * U cfg)%nat -> (t < Z.to_nat (length cfg z))%nat ->
    hit b t = 1.
Proof.
  pose proof n_positions_pos as Hnp.
  rewrite accuracy_as_hits.
  set (len := Z.to_nat (length cfg z)) in *.
  set (inner := fun b => sumR len (fun t => hit b t)).
  assert (Hinner : forall b, inner b <= INR len).
  { intros b. unfold inner. rewrite <- (Rmult_1_r (INR len)), <- sumR_const.
    apply sumR_le. intros t _. apply hit_range. }
  assert (Hnpos : INR (n_positions cfg z) = INR (S_ cfg * U cfg) * INR len).
  { unfold n_positions. fold len. apply mult_INR. }
  split.
  - intros Hacc b t Hb Ht.
    assert (Hsum : sumR (S_ cfg * U cfg) inner = INR (S_ cfg * U cfg) * INR len).
    { rewrite <- Hnpos.
      apply Rmult_eq_reg_r with (/ INR (n_positions cfg z));
        [|apply Rgt_not_eq, Rinv_0_lt_compat, Hnp].
      rewrite Rinv_r by lra. exact Hacc. }
    pose proof (proj1 (sumR_full _ inner (INR len) (fun b _ => Hinner b))
                  Hsum b Hb) as Hb1.
    unfold inner in Hb1. rewrite <- (Rmult_1_r (INR len)) in Hb1.
    apply (proj1 (sumR_full len (fun t => hit b t) 1
                    (fun t _ => proj2 (hit_range b t))) Hb1 t Ht).
  - intros Hall.
    rewrite (sumR_ext _ _ (fun _ => INR len)).
    + rewrite sumR_const, <- Hnpos. apply Rinv_r. lra.
    + intros b Hb. unfold inner. rewrite (sumR_ext _ _ (fun _ => 1)).
      * rewrite sumR_const. lra.
      * intros t Ht. apply Hall; assumption.
Qed.

(** X9. The accuracy of a horizon (at least one utterance, a non-empty
    window) is 1 exactly when, at every position, no candidate scores above
    the true candidate of class 0: a tie with a negative counts as a hit. *)
Theorem accuracy_one_iff :
  accuracy cfg env z k p = 1 <->
  forall b t j,
    (b < S_ cfg * U cfg)%nat -> (t < Z.to_nat (length cfg z))%nat ->
    (j <= n_negatives cfg)%nat ->
    f2 cfg env z k p b j t <= f2 cfg env z k p b 0 t.
Proof.
  rewrite accuracy_one_all_hits. split.
  - intros H b t j Hb Ht Hj. apply (proj1 (hit_one_iff b t) (H b t Hb Ht)).
    unfold n_classes. lia.
  - intros H b t Hb Ht. apply hit_one_iff. intros j Hj.
    apply H; try assumption. unfold n_classes in Hj. lia.
Qed.

(** Where all candidates of every position tie, the cross-entropy is the
    logarithm of their number and every position is a hit. *)
Lemma tied_scores :
  (forall b t j,
     (b < S_ cfg * U cfg)%nat -> (t < Z.to_nat (length cfg z))%nat ->
     (j < n_classes cfg)%nat ->
     f2 cfg env z k p b j t = f2 cfg env z k p b 0 t) ->
  cross_entropy cfg env z k p = ln (INR (n_classes cfg)) /\
  accuracy cfg env z k p = 1.
Proof.
  intros Htie. pose proof n_positions_pos as Hnp. split.
  - rewrite cross_entropy_eq. fold (n_classes cfg).
    rewrite (sumR_ext _ _ (fun _ =>
               INR (Z.to_nat (length cfg z)) * ln (INR (n_classes cfg)))).
    + rewrite sumR_const, <- Rmult_assoc, <- mult_INR.
      fold (n_positions cfg z). field. lra.
    + intros b Hb.
      rewrite (sumR_ext _ _ (fun _ => ln (INR (n_classes cfg))));
        [apply sumR_const|].
      intros t Ht. unfold nll_class0.
      rewrite (sumR_ext _ _ (fun _ => exp (f2 cfg env z k p b 0 t)))
        by (intros j Hj; rewrite (Htie b t j Hb Ht Hj); reflexivity).
      rewrite sumR_const, ln_mult, ln_exp;
        [lra|apply lt_0_INR; unfold n_classes; lia|apply exp_pos].
  - apply accuracy_one_all_hits. intros b t Hb Ht. apply hit_one_iff.
    intros j Hj. rewrite (Htie b t j Hb Ht Hj). lra.
Qed.

(** X19. When every position of a horizon is a hit (accuracy 1), its loss is
    at most ln (n_negatives + 1), the loss of tied candidates. *)
Theorem all_hits_bound_loss :
  accuracy cfg env z k p = 1 ->
  cross_entropy cfg env z k p <= ln (INR (n_negatives cfg + 1)).
Proof.
  intros Hacc. pose proof n_positions_pos as Hnp.
  pose proof (proj1 accuracy_one_all_hits Hacc) as Hhits.
  assert (Hn : 0 < INR (n_negatives cfg + 1)) by (apply lt_0_INR; lia).
  rewrite cross_entropy_eq.
  apply Rmult_le_reg_r with (INR (n_positions cfg z)); [exact Hnp|].
  unfold n_positions in *. unfold Rdiv.
  rewrite Rmult_assoc, Rinv_l, Rmult_1_r by lra.
  rewrite mult_INR, (Rmult_comm (ln _)), Rmult_assoc, <- sumR_const.
  apply sumR_le. intros b Hb.
  rewrite <- sumR_const. apply sumR_le. intros t Ht.
  pose proof (proj1 (hit_one_iff b t) (Hhits b t Hb Ht)) as Hle.
  unfold nll_class0. fold (n_classes cfg) in *.
  set (g := fun j => f2 cfg env z k p b j t) in *.
  assert (Hsum : sumR (n_classes cfg) (fun j => exp (g j))
                 <= INR (n_classes cfg) * exp (g O)).
  { rewrite <- sumR_const. apply sumR_le. intros j Hj.
    apply VQProps.exp_le. apply Hle, Hj. }
  assert (Hpos : 0 < sumR (n_classes cfg) (fun j => exp (g j))).
  { apply Rlt_le_trans with (exp (g O)); [apply exp_pos|].
    apply (sumR_term_le (n_classes cfg) (fun j => exp (g j)) O);
      [intros; left; apply exp_pos|unfold n_classes; lia]. }
  assert (Hln : ln (sumR (n_classes cfg) (fun j => exp (g j)))
                <= ln (INR (n_classes cfg) * exp (g O))).
  { destruct Hsum as [Hlt|Heq]; [left; apply ln_increasing; assumption|].
    rewrite Heq. lra. }
  rewrite ln_mult, ln_exp in Hln; [|exact Hn|apply exp_pos].
  unfold g in *. cbv beta in *. lra.
Qed.

End HorizonAccuracy.

Lemma accuracy_one_iff_witness :
  accuracy sample_config sample_env sample_z 1 zero_prediction = 1 <->
  forall b t j,
    (b < S_ sample_config * U sample_config)%nat ->
    (t < Z.to_nat (length sample_config sample_z))%nat ->
    (j <= n_negatives sample_config)%nat ->
    f2 sample_config sample_env sample_z 1 zero_prediction b j t
    <= f2 sample_config sample_env sample_z 1 zero_prediction b 0 t.
Proof.
  apply accuracy_one_iff; vm_compute; lia.
Defined.

Lemma zero_prediction_scores b j t :
  f2 sample_config sample_env sample_z 1 zero_prediction b j t = 0.
Proof.
  unfold f2, f. apply sumR_all_zero. intros d _.
  unfold Wc, zero_prediction. simpl get3. unfold Rdiv. lra.
Qed.

Lemma all_hits_bound_loss_witness :
  accuracy sample_config sample_env sample_z 1 zero_prediction = 1 /\
  cross_entropy sample_config sample_env sample_z 1 zero_prediction
  <= ln (INR (n_negatives sample_config + 1)).
Proof.
  assert (Hacc : accuracy sample_config sample_env sample_z 1 zero_prediction
                 = 1).
  { apply tied_scores; [vm_compute; lia|vm_compute; lia|].
    intros b t j _ _ _. rewrite !zero_prediction_scores. reflexivity. }
  split; [exact Hacc|].
  apply all_hits_bound_loss; [vm_compute; lia|vm_compute; lia|exact Hacc].
Defined.

Lemma list_mean_const l v :
  l <> [] -> (forall a, In a l -> a = v) -> list_mean l = v.
Proof.
  intros Hne Hall. unfold list_mean.
  assert (Hsum : fold_right Rplus 0 l = INR (List.length l) * v).
  { clear Hne. induction l as [|a l IH]; [simpl; lra|].
    assert (Hl : INR (List.length (a :: l)) = INR (List.length l) + 1)
      by apply S_INR.
    rewrite Hl.
    change (fold_right Rplus 0 (a :: l)) with (a + fold_right Rplus 0 l).
    rewrite IH by (intros; apply Hall; right; assumption).
    rewrite (Hall a) by (left; reflexivity). lra. }
  rewrite Hsum. field. apply not_0_INR. destruct l; [congruence|simpl; lia].
Qed.

(** A call that succeeds and whose horizons all have tied candidates. *)
Lemma forward_tied cfg env z c st c2 :
  z_layout cfg z -> c_layout cfg z c -> (1 <= K cfg)%nat ->
  (2 <= length cfg z)%Z -> positional cfg env c = Some c2 ->
  layers_return cfg env st c2 ->
  (forall k b t j,
     (1 <= k <= K cfg)%nat -> (j < n_negatives cfg + 1)%nat ->
     f2 cfg env z k (predicted env c2 (mask_in_effect st c2) k) b j t
     = f2 cfg env z k (predicted env c2 (mask_in_effect st c2) k) b 0 t) ->
  exists accuracies,
    snd (forward cfg env z c st)
    = Some (ln (INR (n_negatives cfg + 1)), accuracies) /\
    List.length accuracies = K cfg /\
    forall a, In a accuracies -> a = 1.
Proof.
  intros Hz Hc HK Hlen Hpos Hlayers Htie.
  pose proof Hz as (_ & _ & HS & HU & _).
  assert (Hrows : (0 < S_ cfg * U cfg)%nat) by (unfold S_, U; nia).
  assert (Hwin : (0 < Z.to_nat (length cfg z))%nat) by lia.
  rewrite (cpc_forward_returns cfg env z c st c2 Hz Hc HK Hlen Hpos Hlayers).
  eexists. split; [|split].
  - simpl. f_equal. f_equal. apply list_mean_const.
    + destruct (K cfg); [lia|discriminate].
    + intros a Ha. apply in_map_iff in Ha. destruct Ha as (k & <- & Hk).
      apply in_seq in Hk.
      apply (tied_scores cfg env z k _ Hrows Hwin).
      intros b t j _ _ Hj. apply Htie; [lia|exact Hj].
  - rewrite length_map, length_seq. reflexivity.
  - intros a Ha. apply in_map_iff in Ha. destruct Ha as (k & <- & Hk).
    apply in_seq in Hk.
    apply (tied_scores cfg env z k _ Hrows Hwin).
    intros b t j _ _ Hj. apply Htie; [lia|exact Hj].
Qed.

(** X10. When the transformer layers of a call that succeeds return zeros,
    every candidate scores 0: the loss is ln (n_negatives + 1) and, ties
    counting for the true candidate, every accuracy is 1. *)
Theorem zero_prediction_loss cfg env z c st c2 :
  z_layout cfg z -> c_layout cfg z c -> (1 <= K cfg)%nat ->
  (2 <= length cfg z)%Z -> positional cfg env c = Some c2 ->
  layers_return cfg env st c2 ->
  (forall k t b d,
     (1 <= k <= K cfg)%nat ->
     get3 (predicted env c2 (mask_in_effect st c2) k) t b d = 0) ->
  exists accuracies,
    snd (forward cfg env z c st)
    = Some (ln (INR (n_negatives cfg + 1)), accuracies) /\
    List.length accuracies = K cfg /\
    forall a, In a accuracies -> a = 1.
Proof.
  intros Hz Hc HK Hlen Hpos Hlayers Hzero.
  apply (forward_tied cfg env z c st c2); try assumption.
  intros k b t j Hk _.
  assert (H0 : forall j', f2 cfg env z k
                 (predicted env c2 (mask_in_effect st c2) k) b j' t = 0).
  { intros j'. unfold f2, f. apply sumR_all_zero. intros d _.
    unfold Wc. rewrite (Hzero k _ _ _ Hk). unfold Rdiv. lra. }
  rewrite !H0. reflexivity.
Qed.

Lemma zero_env_layers_return cfg st c2 : layers_return cfg zero_env st c2.
Proof.
  intros k _. eexists. split; [reflexivity|repeat split].
Qed.

Lemma zero_prediction_loss_witness :
  exists accuracies,
    snd (forward sample_config zero_env sample_z sample_z init)
    = Some (ln (INR (n_negatives sample_config + 1)), accuracies) /\
    List.length accuracies = K sample_config /\
    forall a, In a accuracies -> a = 1.
Proof.
  destruct (positional_returns sample_config zero_env sample_z)
    as (c2 & Hc2); [reflexivity|rewrite sample_c_len; lia|].
  apply (zero_prediction_loss sample_config zero_env sample_z sample_z init c2).
  - apply sample_layout.
  - repeat split.
  - vm_compute. lia.
  - vm_compute. discriminate.
  - exact Hc2.
  - apply zero_env_layers_return.
  - intros k t b d _. reflexivity.
Defined.

(** X11. Without negatives (n_negatives = 0) a call that succeeds has one
    candidate per position: its loss is 0 and every accuracy is 1,
    whatever the latents and the predictions. *)
Theorem no_negatives_loss cfg env z c st c2 :
  z_layout cfg z -> c_layout cfg z c -> (1 <= K cfg)%nat ->
  (2 <= length cfg z)%Z -> positional cfg env c = Some c2 ->
  layers_return cfg env st c2 ->
  n_negatives cfg = 0%nat ->
  exists accuracies,
    snd (forward cfg env z c st) = Some (0, accuracies) /\
    List.length accuracies = K cfg /\
    forall a, In a accuracies -> a = 1.
Proof.
  intros Hz Hc HK Hlen Hpos Hlayers Hn0.
  destruct (forward_tied cfg env z c st c2 Hz Hc HK Hlen Hpos Hlayers)
    as (accs & Hf & Hl & Ha).
  - intros k b t j _ Hj.
    assert (j = O) by lia. subst j. reflexivity.
  - exists accs. rewrite Hn0 in Hf. simpl in Hf. rewrite ln_1 in Hf.
    repeat split; assumption.
Qed.

Lemma no_negatives_loss_witness :
  exists accuracies,
    snd (forward no_negative_config sample_env sample_z sample_z init)
    = Some (0, accuracies) /\
    List.length accuracies = K no_negative_config /\
    forall a, In a accuracies -> a = 1.
Proof.
  destruct (positional_returns no_negative_config sample_env sample_z)
    as (c2 & Hc2); [reflexivity|vm_compute; lia|].
  apply (no_negatives_loss no_negative_config sample_env sample_z sample_z
           init c2).
  - unfold z_layout. simpl. lia.
  - repeat split.
  - vm_compute. lia.
  - vm_compute. discriminate.
  - exact Hc2.
  - apply sample_layers_return.
  - reflexivity.
Defined.
End CPCExtra.

(** ** Channel normalisation *)

Module ChannelNormProps.
Import ChannelNorm.

Lemma broadcast_index_id size i : (2 <= size)%nat -> broadcast_index size i = i.
Proof.
  intros H. unfold broadcast_index.
  destruct (Nat.eqb_spec size 1); [lia|reflexivity].
Qed.

Lemma broadcast_size_same c : broadcast_size c c = c.
Proof. unfold broadcast_size. destruct (Nat.eqb_spec c 1); congruence. Qed.

(** With parameters shaped for the channels of the input, [forward] returns
    a tensor of the input's shape: the normalised input, scaled and shifted
    channel by channel. *)
Lemma forward_affine prm x :
  affine_for prm (size1 x) -> (2 <= size1 x)%nat ->
  exists y,
    forward prm x = Some y /\
    size0 y = size0 x /\ size1 y = size1 x /\ size2 y = size2 x /\
    forall b c l, (c < size1 x)%nat ->
      get3 y b c l = normalized prm x b c l * weight_at prm c + bias_at prm c.
Proof.
  intros [[Hw Hb]|(w & bs & Hw & Hb & Sw & Sb)] HC; unfold forward.
  - rewrite Hw. eexists. split; [reflexivity|]. repeat split.
    intros b c l _. unfold weight_at, bias_at. rewrite Hw, Hb. simpl. lra.
  - rewrite Hw, Hb, Sw, Sb. cbv zeta.
    rewrite !broadcast_size_same.
    unfold broadcast_ok. rewrite Nat.eqb_refl. simpl.
    eexists. split; [reflexivity|]. repeat split.
    intros b c l _. simpl. rewrite !broadcast_index_id by exact HC.
    unfold weight_at, bias_at. rewrite Hw, Hb. reflexivity.
Qed.

Lemma init_affine_for n eps affine : affine_for (init n eps affine) n.
Proof.
  destruct affine; [right|left; split; reflexivity].
  do 2 eexists. repeat split.
Qed.

(** The deviations from the channel mean add up to zero. *)
Lemma centered_sum x b l :
  (0 < size1 x)%nat ->
  sumR (size1 x) (fun c => get3 x b c l - cum_mean x b l) = 0.
Proof.
  intros HC. rewrite sumR_minus, sumR_const. unfold cum_mean.
  field. apply not_0_INR. lia.
Qed.

Lemma normalized_sum prm x b l :
  (0 < size1 x)%nat -> sumR (size1 x) (fun c => normalized prm x b c l) = 0.
Proof.
  intros HC. unfold normalized.
  rewrite (sumR_ext _ _ (fun c => rsqrt (cum_var x b l + epsilon prm)
                                  * (get3 x b c l - cum_mean x b l)))
    by (intros; lra).
  rewrite sumR_scal, centered_sum by exact HC. lra.
Qed.

(** X12. A freshly constructed ChannelNorm (with or without affine
    parameters, epsilon positive) applied to an input of n_features >= 2
    channels returns a tensor of the input's shape whose values add up to
    zero over the channels at every batch item and time: the output has
    zero channel mean. *)
Theorem fresh_output_zero_mean n eps affine x :
  size1 x = n -> (2 <= n)%nat -> 0 < eps ->
  exists y,
    forward (init n eps affine) x = Some y /\
    size0 y = size0 x /\ size1 y = size1 x /\ size2 y = size2 x /\
    forall b l, sumR (size1 y) (fun c => get3 y b c l) = 0.
Proof.
  intros Hn HC _. subst n.
  destruct (forward_affine (init (size1 x) eps affine) x
              (init_affine_for _ _ _) HC) as (y & Hy & S0 & S1 & S2 & Hval).
  exists y. repeat split; try assumption.
  intros b l. rewrite S1.
  rewrite (sumR_ext _ _ (fun c => normalized (init (size1 x) eps affine) x b c l)).
  - apply normalized_sum. lia.
  - intros c Hc. rewrite (Hval b c l Hc).
    destruct affine; unfold weight_at, bias_at; simpl; lra.
Qed.

Lemma fresh_output_zero_mean_witness :
  exists y,
    forward (init 3 1e-5 true) frame_1_3_1 = Some y /\
    size0 y = size0 frame_1_3_1 /\ size1 y = size1 frame_1_3_1 /\
    size2 y = size2 frame_1_3_1 /\
    forall b l, sumR (size1 y) (fun c => get3 y b c l) = 0.
Proof.
  apply fresh_output_zero_mean.
  - reflexivity.
  - lia.
  - lra.
Defined.

(** *** Invariance under a shift common to all channels *)

Section Shift.

Variable x x' : Tensor3.
Variable a : nat -> nat -> R.
Hypothesis same_channels : size1 x' = size1 x.
Hypothesis channels_pos : (0 < size1 x)%nat.
Hypothesis shifted :
  forall b c l, (c < size1 x)%nat -> get3 x' b c l = get3 x b c l + a b l.

Lemma cum_mean_shift b l : cum_mean x' b l = cum_mean x b l + a b l.
Proof.
  unfold cum_mean. rewrite same_channels.
  rewrite (sumR_ext _ _ (fun c => get3 x b c l + a b l))
    by (intros; apply shifted; assumption).
  rewrite sumR_plus, sumR_const. field. apply not_0_INR. lia.
Qed.

Lemma cum_var_shift b l : cum_var x' b l = cum_var x b l.
Proof.
  unfold cum_var. rewrite same_channels. f_equal.
  apply sumR_ext. intros c Hc.
  rewrite cum_mean_shift, (shifted b c l Hc). f_equal. lra.
Qed.

Lemma normalized_shift prm b c l :
  (c < size1 x)%nat -> normalized prm x' b c l = normalized prm x b c l.
Proof.
  intros Hc. unfold normalized.
  rewrite cum_var_shift, cum_mean_shift, (shifted b c l Hc). f_equal. lra.
Qed.

End Shift.

(** X13. ChannelNorm ignores a shift common to all channels: for parameters
    shaped for the C >= 2 channels of the input and a positive epsilon,
    adding to every channel of the input the same value a(b, l) at batch
    item b and time l leaves the output unchanged. *)
Theorem shift_invariant prm x x' a :
  affine_for prm (size1 x) -> (2 <= size1 x)%nat -> 0 < epsilon prm ->
  size0 x' = size0 x -> size1 x' = size1 x -> size2 x' = size2 x ->
  (forall b c l, (c < size1 x)%nat -> get3 x' b c l = get3 x b c l + a b l) ->
  exists y y',
    forward prm x = Some y /\ forward prm x' = Some y' /\ teq3 y' y.
Proof.
  intros Haff HC _ E0 E1 E2 Hshift.
  destruct (forward_affine prm x Haff HC) as (y & Hy & S0 & S1 & S2 & Hval).
  destruct (forward_affine prm x') as (y' & Hy' & S0' & S1' & S2' & Hval');
    [rewrite E1; exact Haff|lia|].
  exists y, y'. split; [exact Hy|]. split; [exact Hy'|].
  repeat split; try congruence.
  intros b c l _ Hc _. rewrite S1', E1 in Hc.
  rewrite Hval' by lia. rewrite Hval by exact Hc.
  rewrite (normalized_shift x x' a E1 ltac:(lia) Hshift prm b c l Hc).
  reflexivity.
Qed.

Lemma shift_invariant_witness :
  exists y y',
    forward (init 3 1e-5 true) frame_1_3_1 = Some y /\
    forward (init 3 1e-5 true) (T3 1 3 1 (fun b c l => INR c + 5)) = Some y' /\
    teq3 y' y.
Proof.
  apply (shift_invariant (init 3 1e-5 true) frame_1_3_1
           (T3 1 3 1 (fun b c l => INR c + 5)) (fun _ _ => 5)).
  - apply (init_affine_for 3).
  - simpl. lia.
  - simpl. lra.
  - reflexivity.
  - reflexivity.
  - reflexivity.
  - intros b c l _. reflexivity.
Defined.

(** *** The size of the output *)

Lemma rsqrt_sq v : 0 < v -> rsqrt v * rsqrt v = / v.
Proof.
  intros Hv. unfold rsqrt. rewrite <- Rinv_mult, sqrt_sqrt by lra. reflexivity.
Qed.

Lemma cum_var_nonneg x b l : 0 <= cum_var x b l.
Proof.
  unfold cum_var. apply Rmult_le_pos.
  - apply sumR_nonneg. intros. apply sq_nonneg.
  - destruct (size1 x - 1)%nat as [|k]; [simpl; rewrite Rinv_0; lra|].
    left. apply Rinv_0_lt_compat, lt_0_INR. lia.
Qed.

(** The squares of the normalised values of a frame add up to
    (C - 1) * var / (var + epsilon). *)
Lemma normalized_energy prm x b l :
  (2 <= size1 x)%nat -> 0 < epsilon prm ->
  sumR (size1 x) (fun c => sq (normalized prm x b c l))
  = INR (size1 x - 1) * (cum_var x b l / (cum_var x b l + epsilon prm)).
Proof.
  intros HC He. pose proof (cum_var_nonneg x b l) as Hv.
  assert (Hn : 0 < INR (size1 x - 1)) by (apply lt_0_INR; lia).
  unfold normalized.
  rewrite (sumR_ext _ _ (fun c =>
             (rsqrt (cum_var x b l + epsilon prm)
              * rsqrt (cum_var x b l + epsilon prm))
             * sq (get3 x b c l - cum_mean x b l)))
    by (intros; unfold sq; lra).
  rewrite sumR_scal, rsqrt_sq by lra.
  assert (Hss : sumR (size1 x) (fun c => sq (get3 x b c l - cum_mean x b l))
                = INR (size1 x - 1) * cum_var x b l).
  { unfold cum_var. field. lra. }
  rewrite Hss. field. lra.
Qed.

Lemma normalized_energy_bound prm x b l :
  (2 <= size1 x)%nat -> 0 < epsilon prm ->
  sumR (size1 x) (fun c => sq (normalized prm x b c l)) < INR (size1 x - 1).
Proof.
  intros HC He. rewrite normalized_energy by assumption.
  pose proof (cum_var_nonneg x b l) as Hv.
  assert (Hn : 0 < INR (size1 x - 1)) by (apply lt_0_INR; lia).
  assert (cum_var x b l / (cum_var x b l + epsilon prm) < 1).
  { apply Rmult_lt_reg_r with (cum_var x b l + epsilon prm); [lra|].
    unfold Rdiv. rewrite Rmult_assoc, Rinv_l by lra. lra. }
  nra.
Qed.

(** X14. ChannelNorm bounds its output whatever the size of its input: for
    parameters shaped for the C >= 2 channels of the input and a positive
    epsilon, the squares of the normalised values of every frame add up to
    less than C - 1, and every output value lies within
    sqrt(C - 1) * |weight_c| of bias_c (stated on squares). *)
Theorem output_bounded prm x :
  affine_for prm (size1 x) -> (2 <= size1 x)%nat -> 0 < epsilon prm ->
  exists y,
    forward prm x = Some y /\
    forall b l,
      sumR (size1 x) (fun c => sq (normalized prm x b c l))
      < INR (size1 x - 1) /\
      forall c, (c < size1 x)%nat ->
        sq (get3 y b c l - bias_at prm c)
        <= INR (size1 x - 1) * sq (weight_at prm c).
Proof.
  intros Haff HC He.
  destruct (forward_affine prm x Haff HC) as (y & Hy & _ & _ & _ & Hval).
  exists y. split; [exact Hy|]. intros b l.
  pose proof (normalized_energy_bound prm x b l HC He) as Hsum.
  split; [exact Hsum|]. intros c Hc. rewrite (Hval b c l Hc).
  assert (Hterm : sq (normalized prm x b c l)
                  <= sumR (size1 x) (fun c => sq (normalized prm x b c l))).
  { apply (sumR_term_le (size1 x) (fun c => sq (normalized prm x b c l)) c);
      [intros; apply sq_nonneg|exact Hc]. }
  pose proof (sq_nonneg (weight_at prm c)) as Hw.
  replace (sq (normalized prm x b c l * weight_at prm c + bias_at prm c
               - bias_at prm c))
    with (sq (normalized prm x b c l) * sq (weight_at prm c))
    by (unfold sq; ring).
  apply Rmult_le_compat_r; [exact Hw|lra].
Qed.

Lemma output_bounded_witness :
  exists y,
    forward (init 3 1e-5 true) frame_1_3_1 = Some y /\
    forall b l,
      sumR (size1 frame_1_3_1)
           (fun c => sq (normalized (init 3 1e-5 true) frame_1_3_1 b c l))
      < INR (size1 frame_1_3_1 - 1) /\
      forall c, (c < size1 frame_1_3_1)%nat ->
        sq (get3 y b c l - bias_at (init 3 1e-5 true) c)
        <= INR (size1 frame_1_3_1 - 1) * sq (weight_at (init 3 1e-5 true) c).
Proof.
  apply output_bounded.
  - apply (init_affine_for 3).
  - simpl. lia.
  - simpl. lra.
Defined.

(** X15. A frame whose channels all hold the same value is normalised to
    zero: for parameters shaped for the C >= 2 channels of the input and a
    positive epsilon, the output of such a frame is the bias, channel by
    channel (zero without affine parameters). *)
Theorem constant_frame_gives_bias prm x b l v :
  affine_for prm (size1 x) -> (2 <= size1 x)%nat -> 0 < epsilon prm ->
  (forall c, (c < size1 x)%nat -> get3 x b c l = v) ->
  exists y,
    forward prm x = Some y /\
    forall c, (c < size1 x)%nat -> get3 y b c l = bias_at prm c.
Proof.
  intros Haff HC _ Hconst.
  destruct (forward_affine prm x Haff HC) as (y & Hy & _ & _ & _ & Hval).
  exists y. split; [exact Hy|]. intros c Hc. rewrite (Hval b c l Hc).
  assert (Hmean : cum_mean x b l = v).
  { unfold cum_mean. rewrite (sumR_ext _ _ (fun _ => v)) by exact Hconst.
    rewrite sumR_const. field. apply not_0_INR. lia. }
  unfold normalized. rewrite Hmean, (Hconst c Hc). lra.
Qed.

Lemma constant_frame_gives_bias_witness :
  exists y,
    forward (init 3 1e-5 true) (T3 1 3 1 (fun _ _ _ => 7)) = Some y /\
    forall c, (c < 3)%nat -> get3 y 0 c 0 = bias_at (init 3 1e-5 true) c.
Proof.
  apply (constant_frame_gives_bias (init 3 1e-5 true)
           (T3 1 3 1 (fun _ _ _ => 7)) 0 0 7).
  - apply (init_affine_for 3).
  - simpl. lia.
  - simpl. lra.
  - intros c _. reflexivity.
Defined.
End ChannelNormProps.

(** ** Positional encoding *)

Module PositionalProps.










End PositionalProps.

(** ** The encoder *)

Module EncoderProps.
Import Encoder.

(** The quantizer rejects latents that do not have the 2 * 128 channels of
    the encoder's codebook. *)
Lemma codebook_rejects cfg cb z training :
  VQ.N cb = 2%nat -> VQ.D cb = 128%nat -> size1 z <> 256%nat ->
  VQ.forward cfg cb z training = None.
Proof.
  intros HN HD Hz. unfold VQ.forward, VQ.C. rewrite HN, HD.
  destruct (Nat.eqb_spec (size1 z) (2 * 128)); [lia|reflexivity].
Qed.

Lemma codebook_accepts cb z :
  VQ.N cb = 2%nat -> VQ.M cb = 128%nat -> VQ.D cb = 128%nat ->
  size1 z = 256%nat -> VQ.valid_input cb z.
Proof.
  intros HN HM HD Hz. unfold VQ.valid_input, VQ.C.
  rewrite HN, HM, HD, Hz. lia.
Qed.

(** X18. The encoder's codebook is built for 2 groups of 128 features
    whatever z_dim is: when the convolution stack returns latents that do
    not have 256 channels the call raises and leaves the module as it was;
    when they have 256 channels and the LSTM returns, the call returns,
    keeps the shape of the codebook, and its first result z is the
    quantized latents with time before channels, shape (B, L, 256): the two
    halves of every frame of z are the first nearest code of group 0 and of
    group 1, in the codebook as it stood when the call started, of the two
    halves of the latent frame. *)
Theorem encoder_needs_256_channels md st mels z :
  codebook_shaped st -> encoder md mels = Some z ->
  (size1 z <> 256%nat -> forward md st mels = (st, None)) /\
  (size1 z = 256%nat ->
   forall c, rnn md (transpose12 (VQ.output (codebook st) z)) = Some c ->
     exists st' zt loss perplexity,
       forward md st mels = (st', Some (zt, c, loss, perplexity)) /\
       codebook_shaped st' /\ training st' = training st /\
       size0 zt = size0 z /\ size1 zt = size2 z /\ size2 zt = 256%nat /\
       forall b l n, (b < size0 z)%nat -> (l < size2 z)%nat -> (n < 2)%nat ->
         exists j,
           VQ.first_nearest (codebook st) n
             (VQ.input_vector (codebook st) z n b l) j /\
           forall d, (d < 128)%nat ->
             get3 zt b l (n * 128 + d) = VQ.code (codebook st) n j d).
Proof.
  intros (HN & HM & HD) Henc. split.
  - intros Hz. unfold forward. rewrite Henc.
    rewrite (codebook_rejects _ _ _ _ HN HD Hz). reflexivity.
  - intros Hz c Hrnn.
    pose proof (codebook_accepts _ _ HN HM HD Hz) as Hx.
    unfold forward. rewrite Henc.
    rewrite (VQProps.vq_forward_returns VQ.default_config (codebook st) z
               (training st) Hx).
    cbv zeta. rewrite Hrnn.
    do 4 eexists. split; [reflexivity|].
    split; [destruct (training st); repeat split; assumption|].
    split; [reflexivity|]. split; [reflexivity|]. split; [reflexivity|].
    split; [exact Hz|].
    intros b l n Hb Hl Hn.
    exists (VQ.indices (codebook st) z n (b * VQ.L z + l)). split.
    + apply VQProps.indices_first_nearest; [rewrite HM; lia|exact Hl].
    + intros d Hd.
      change (get3 (transpose12 (VQ.output (codebook st) z)) b l (n * 128 + d))
        with (get3 (VQ.output (codebook st) z) b (n * 128 + d) l).
      rewrite <- HD. apply VQProps.output_at; [rewrite HD; exact Hd|exact Hl].
Qed.

(** The sample sub-modules take the sample input to latents of [zd]
    channels. *)
Lemma sample_conv zd i x :
  (i < 7)%nat -> convs (sample_modules zd) i x = Some x.
Proof.
  intros Hi. unfold sample_modules, convs.
  destruct (Nat.eqb_spec i 7); [lia|reflexivity].
Qed.

Lemma sample_block zd i x :
  (i < 7)%nat -> size1 x = 4%nat ->
  exists y, block (sample_modules zd) i x = Some y /\ size1 y = 4%nat.
Proof.
  intros Hi Hx. unfold block. rewrite (sample_conv zd i x Hi).
  destruct (ChannelNormProps.forward_affine (ChannelNorm.init 4 1e-5 true) x)
    as (y & Hy & _ & S1 & _).
  - rewrite Hx. apply ChannelNormProps.init_affine_for.
  - lia.
  - change (norms (sample_modules zd) i) with (ChannelNorm.init 4 1e-5 true).
    rewrite Hy. exists (relu y). split; [reflexivity|].
    unfold relu. simpl. congruence.
Qed.

Lemma sample_blocks zd n : forall i x,
  (i + n <= 7)%nat -> size1 x = 4%nat ->
  exists y, blocks (sample_modules zd) n i x = Some y /\ size1 y = 4%nat.
Proof.
  induction n as [|n IH]; intros i x Hi Hx.
  - exists x. split; [reflexivity|exact Hx].
  - destruct (sample_block zd i x ltac:(lia) Hx) as (y & Hy & Sy).
    destruct (IH (S i) y ltac:(lia) Sy) as (y' & Hy' & Sy').
    exists y'. split; [|exact Sy'].
    change (blocks (sample_modules zd) (S n) i x)
      with (match block (sample_modules zd) i x with
            | None => None
            | Some y0 => blocks (sample_modules zd) n (S i) y0
            end).
    rewrite Hy. exact Hy'.
Qed.

Lemma sample_encoder zd :
  exists z, encoder (sample_modules zd) sample_mels = Some z /\ size1 z = zd.
Proof.
  destruct (sample_blocks zd 7 0 sample_mels ltac:(lia) ltac:(reflexivity))
    as (y & Hy & _).
  unfold encoder. rewrite Hy.
  eexists. split; reflexivity.
Qed.

Lemma encoder_needs_256_channels_witness :
  forward (sample_modules 64) (init (fun n m d => INR m)) sample_mels
  = (init (fun n m d => INR m), None) /\
  exists st' zt c loss perplexity,
    forward (sample_modules 256) (init (fun n m d => INR m)) sample_mels
    = (st', Some (zt, c, loss, perplexity)) /\
    size2 zt = 256%nat.
Proof.
  split.
  - destruct (sample_encoder 64) as (z & Hz & Hs).
    destruct (encoder_needs_256_channels (sample_modules 64)
                (init (fun n m d => INR m)) sample_mels z) as [Hfail _].
    + repeat split.
    + exact Hz.
    + apply Hfail. rewrite Hs. discriminate.
  - destruct (sample_encoder 256) as (z & Hz & Hs).
    destruct (encoder_needs_256_channels (sample_modules 256)
                (init (fun n m d => INR m)) sample_mels z) as [_ Hok].
    + repeat split.
    + exact Hz.
    + destruct (Hok Hs (transpose12 (VQ.output
                          (codebook (init (fun n m d => INR m))) z)))
        as (st' & zt & loss & perp & Hf & _ & _ & _ & _ & H256 & _).
      * reflexivity.
      * do 5 eexists. split; [exact Hf|exact H256].
Defined.

End EncoderProps.
